(** * sismic: the statechart interpreter ([sismic/interpreter.py])

    A shallow embedding of the micro-step / macro-step interpreter and the
    properties of its specification.

    - Python sets (the active configuration) are [gset string]; turning a
      set into a list ([list(s)], iteration) is [elements].
    - The history memory dict is a [gmap string (list string)].
    - The event deque is a list whose head is the left end.
    - The statechart model ([sismic/model.py]) and the evaluator
      ([sismic/evaluator.py]) are collaborators of the interpreter: the
      statechart is a record of the queries the interpreter calls, the
      evaluator a pair of functions over an abstract evaluator state.
      The two functions are the calls of the evaluator that return: what
      is proved with them is about runs in which no guard and no action
      raises. The selection with guards that can raise is [Raising].
    - Exceptions and the mutation of [self] are explicit: a computation
      maps an interpreter state to the state reached and an outcome. *)

From Stdlib Require Import String Ascii Sorted Permutation.
From stdpp Require Import base option list sorting gmap sets strings.


(** ** The statechart model, as the interpreter consumes it *)

(** [model.Event]: a name; its data is opaque to the interpreter. *)
Record Event := mkEvent { event_name : string }.

#[global] Instance Event_eq_dec : EqDecision Event.
Proof. solve_decision. Defined.

(** [model.Transition]. [to_state = None] is an internal transition,
    [event = None] an eventless one. Guards and actions are source code
    handed to the evaluator. *)
Record Transition := mkTransition {
  from_state : string;
  to_state : option string;
  event : option Event;
  guard : option string;
  action : option string }.

#[global] Instance Transition_eq_dec : EqDecision Transition.
Proof. solve_decision. Defined.

(** The state variants of [model]: [children] and [initial] exist on the
    composite variants only, [transitions] on the variants that can be a
    source, [on_entry]/[on_exit] on the variants with
    [ActionStateMixin]. *)
Inductive State :=
| BasicState (name : string) (on_entry on_exit : option string)
    (transitions : list Transition)
| CompoundState (name : string) (initial : option string)
    (on_entry on_exit : option string) (children : list string)
    (transitions : list Transition)
| OrthogonalState (name : string) (on_entry on_exit : option string)
    (children : list string) (transitions : list Transition)
| HistoryState (name : string) (initial : string) (deep : bool)
| FinalState (name : string) (on_entry on_exit : option string).

Definition state_name (s : State) : string :=
  match s with
  | BasicState n _ _ _ | CompoundState n _ _ _ _ _ | OrthogonalState n _ _ _ _
  | HistoryState n _ _ | FinalState n _ _ => n
  end.

(** [getattr(state, 'transitions', [])] *)
Definition state_transitions (s : State) : list Transition :=
  match s with
  | BasicState _ _ _ ts | CompoundState _ _ _ _ _ ts
  | OrthogonalState _ _ _ _ ts => ts
  | HistoryState _ _ _ | FinalState _ _ _ => []
  end.

(** Python truthiness of an optional piece of code: [None] and the empty
    string are false. *)
Definition truthy (c : option string) : option string :=
  match c with
  | Some "" => None
  | Some s => Some s
  | None => None
  end.

(** [isinstance(state, model.ActionStateMixin) and state.on_exit] *)
Definition state_on_exit (s : State) : option string :=
  match s with
  | BasicState _ _ x _ | CompoundState _ _ _ x _ _ | OrthogonalState _ _ x _ _
  | FinalState _ _ x => truthy x
  | HistoryState _ _ _ => None
  end.

(** [isinstance(state, model.ActionStateMixin) and state.on_entry] *)
Definition state_on_entry (s : State) : option string :=
  match s with
  | BasicState _ e _ _ | CompoundState _ _ e _ _ _ | OrthogonalState _ e _ _ _
  | FinalState _ e _ => truthy e
  | HistoryState _ _ _ => None
  end.

Definition is_orthogonal (s : option State) : bool :=
  match s with Some (OrthogonalState _ _ _ _ _) => true | _ => false end.

(** [model.StateChart], reduced to what the interpreter reads and calls. *)
Record StateChart := mkStateChart {
  states : gmap string State;
  sc_initial : string;
  sc_on_entry : option string;
  ancestors_for : string -> list string;
  descendants_for : string -> list string;
  least_common_ancestor : string -> string -> option string;
  depth_of : string -> nat;
  leaf_for : list string -> list string }.

(** ** Steps *)

(** [MicroStep]. The constructor replaces a missing transition or list by
    an empty list; here a missing transition is [None]. *)
Record MicroStep := mkMicroStep {
  ms_event : option Event;
  ms_transition : option Transition;
  entered_states : list string;
  exited_states : list string }.

Definition MicroStep_init (ev : option Event) (t : option Transition)
    (entered exited : option (list string)) : MicroStep :=
  {| ms_event := ev; ms_transition := t;
     entered_states := default [] entered;
     exited_states := default [] exited |}.

Record MacroStep := mkMacroStep { steps : list MicroStep }.

(** [MacroStep.event]: the body evaluates [self.steps[0].event] as an
    expression statement inside [try]; an [IndexError] returns [None], and
    without one the function ends with no [return]. *)
Definition MacroStep_event (m : MacroStep) : option Event :=
  match steps m !! 0%nat with
  | None => None
  | Some first => let _ := ms_event first in None
  end.


(** [MacroStep.entered_states] *)
Definition MacroStep_entered_states (m : MacroStep) : list string :=
  concat (map entered_states (steps m)).

(** [MacroStep.exited_states] *)
Definition MacroStep_exited_states (m : MacroStep) : list string :=
  concat (map exited_states (steps m)).

(** ** Interpreter state, exceptions and outcomes *)

(** The two [Warning]s of [_sort_transitions] differ by their message:
    'Non-determinist transitions' and 'Conflicting transitions'. *)
Inductive WarningKind := NonDeterminist | Conflicting.

Inductive Exn :=
| KeyError (key : string)
| AssertionError
| Warning (kind : WarningKind).

(** What a call does: it returns, it raises, or the loop bound of the
    model was reached before the call ended. *)
Inductive outcome (A : Type) :=
| Returns (a : A)
| Raises (e : Exn)
| Unfinished.
Arguments Returns {A} a.
Arguments Raises {A} e.
Arguments Unfinished {A}.

Definition obind {A B} (o : outcome A) (k : A -> outcome B) : outcome B :=
  match o with
  | Returns a => k a
  | Raises e => Raises e
  | Unfinished => Unfinished
  end.

(** The fields of [Interpreter], the evaluator being an abstract state. *)
Record Interpreter (EvalState : Type) := mkInterpreter {
  _evaluator : EvalState;
  _memory : gmap string (list string);
  _configuration : gset string;
  _events : list Event }.
Arguments mkInterpreter {EvalState}.
Arguments _evaluator {EvalState} i.
Arguments _memory {EvalState} i.
Arguments _configuration {EvalState} i.
Arguments _events {EvalState} i.

Section Setters.
Context {EvalState : Type}.
Implicit Type st : Interpreter EvalState.

Definition set_evaluator st (e : EvalState) : Interpreter EvalState :=
  mkInterpreter e (_memory st) (_configuration st) (_events st).

Definition set_memory st (m : gmap string (list string)) :=
  mkInterpreter (_evaluator st) m (_configuration st) (_events st).

Definition set_configuration st (c : gset string) :=
  mkInterpreter (_evaluator st) (_memory st) c (_events st).

Definition set_events st (q : list Event) :=
  mkInterpreter (_evaluator st) (_memory st) (_configuration st) q.

(** [send]: [appendleft] for an internal event, [append] otherwise. *)
Definition send (ev : Event) (internal : bool) st : Interpreter EvalState :=
  if internal then set_events st (ev :: _events st)
  else set_events st (_events st ++ [ev]).

End Setters.

(** A method of the interpreter: from a state to the state reached and the
    outcome. *)
Definition M (EvalState A : Type) : Type :=
  Interpreter EvalState -> Interpreter EvalState * outcome A.

Definition bind {E A B} (m : M E A) (k : A -> M E B) : M E B :=
  fun st =>
    match m st with
    | (st', Returns a) => k a st'
    | (st', Raises e) => (st', Raises e)
    | (st', Unfinished) => (st', Unfinished)
    end.

#[global] Instance outcome_ret : MRet outcome := fun A a => Returns a.
#[global] Instance outcome_bind : MBind outcome := fun A B k o => obind o k.
Definition ret {E A} (a : A) : M E A := fun st => (st, Returns a).

Notation "x <~ m ; k" := (bind m (fun x => k))
  (at level 20, m at level 100, k at level 200, only parsing).

Definition raise {E A} (e : Exn) : M E A := fun st => (st, Raises e).

(** A computation that only reads the interpreter. *)
Definition lift {E A} (f : Interpreter E -> outcome A) : M E A :=
  fun st => (st, f st).

Definition modify {E} (f : Interpreter E -> Interpreter E) : M E unit :=
  fun st => (f st, Returns tt).

(** ** Python's stable sort *)

(** [sorted(l, key=...)] is stable: elements with equal keys keep their
    order. [le x y] is the comparison of the keys; for [reverse=True] it is
    the converse comparison, and stability is kept. *)
Fixpoint insert_by {A} (le : A -> A -> bool) (x : A) (l : list A) : list A :=
  match l with
  | [] => [x]
  | y :: r => if le x y then x :: l else y :: insert_by le x r
  end.

Definition sorted {A} (le : A -> A -> bool) (l : list A) : list A :=
  foldr (insert_by le) [] l.

(** [itertools.combinations(l, 2)] *)
Fixpoint combinations2 {A} (l : list A) : list (A * A) :=
  match l with
  | [] => []
  | x :: r => map (pair x) r ++ combinations2 r
  end.

(** ** The interpreter *)

Section Interpreter.
Context {EvalState : Type}.

(** [Evaluator.evaluate_condition(guard, event)] reads the evaluator;
    [Evaluator.execute_action(action, event)] updates it and returns the
    events that the action raised. *)
Variable evaluate_condition : EvalState -> string -> option Event -> bool.
Variable execute_action :
  EvalState -> string -> option Event -> EvalState * list Event.

Variable sc : StateChart.

Abbreviation St := (Interpreter EvalState).

(** *** [_select_transitions] *)

(** [transition.guard is None or evaluate_condition(guard, event)] *)
Definition guard_holds (e : EvalState) (ev : option Event) (t : Transition)
    : bool :=
  match guard t with
  | None => true
  | Some g => evaluate_condition e g ev
  end.

(** The innermost [for]: one pass over the transitions of a state, with
    [transition_found] and the list collected so far. *)
Definition scan_transitions (st : St) (ev : option Event)
    (ts : list Transition) (acc : list Transition) : bool * list Transition :=
  foldl (fun '(found, acc) t =>
           if bool_decide (event t ≠ ev)
              || bool_decide (from_state t ∉ _configuration st)
           then (found, acc)
           else if guard_holds (_evaluator st) ev t
                then (true, if bool_decide (t ∈ acc) then acc else acc ++ [t])
                else (found, acc))
        (false, acc) ts.

(** The walk over [[leaf] + ancestors_for(leaf)], left when a state has
    given a transition. *)
Fixpoint select_from (st : St) (ev : option Event) (acc : list Transition)
    (path : list string) : outcome (list Transition) :=
  match path with
  | [] => Returns acc
  | s :: rest =>
      match states sc !! s with
      | None => Raises (KeyError s)
      | Some state =>
          let '(found, acc') :=
            scan_transitions st ev (state_transitions state) acc in
          if found then Returns acc' else select_from st ev acc' rest
      end
  end.

Fixpoint select_leaves (st : St) (ev : option Event) (leaves : list string)
    (acc : list Transition) : outcome (list Transition) :=
  match leaves with
  | [] => Returns acc
  | leaf :: rest =>
      acc' ← select_from st ev acc (leaf :: ancestors_for sc leaf);
      select_leaves st ev rest acc'
  end.

Definition _select_transitions (ev : option Event) (st : St)
    : outcome (list Transition) :=
  select_leaves st ev (leaf_for sc (elements (_configuration st))) [].

Definition _select_eventless_transitions (st : St)
    : outcome (list Transition) :=
  _select_transitions None st.

(** *** [_sort_transitions] *)

(** The loop that leaves [last_before_lca] on the last state visited
    before [lca]. *)
Fixpoint last_before (lca : option string) (cur : string) (l : list string)
    : string :=
  match l with
  | [] => cur
  | s :: rest =>
      if bool_decide (Some s = lca) then cur else last_before lca s rest
  end.

Definition last_before_lca (lca : option string) (source : string) : string :=
  last_before lca source (ancestors_for sc source).

(** [t.to_state in [last_before_lca] + descendants_for(last_before_lca)] *)
Definition in_branch (lca : option string) (t : Transition) : bool :=
  let b := last_before_lca lca (from_state t) in
  match to_state t with
  | None => false
  | Some target => bool_decide (target ∈ b :: descendants_for sc b)
  end.

(** The body of the loop over the pairs: check (1), then check (2) for
    the first and for the second transition. *)
Definition check_pair (p : Transition * Transition) : outcome unit :=
  let lca := least_common_ancestor sc (from_state p.1) (from_state p.2) in
  let lca_state := lca ≫= (fun n => states sc !! n) in
  if negb (is_orthogonal lca_state) then Raises (Warning NonDeterminist)
  else if negb (in_branch lca p.1) then Raises (Warning Conflicting)
  else if negb (in_branch lca p.2) then Raises (Warning Conflicting)
  else Returns tt.

Fixpoint check_pairs (ps : list (Transition * Transition)) : outcome unit :=
  match ps with
  | [] => Returns tt
  | p :: rest => _ ← check_pair p; check_pairs rest
  end.

(** key [t.from_state], [reverse=True] *)
Definition name_ge (a b : Transition) : bool :=
  String.leb (from_state b) (from_state a).

(** key [depth_of(t.from_state)] *)
Definition depth_le (a b : Transition) : bool :=
  Nat.leb (depth_of sc (from_state a)) (depth_of sc (from_state b)).

Definition arbitrary_order (ts : list Transition) : list Transition :=
  reverse (sorted depth_le (sorted name_ge ts)).

Definition _sort_transitions (ts : list Transition)
    : outcome (list Transition) :=
  if bool_decide (1 < length ts) then
    _ ← check_pairs (combinations2 ts);
    Returns (arbitrary_order ts)
  else Returns ts.

(** *** [_compute_transitions_steps] *)

(** The loop that builds [entered_states] with [insert(0, state)]. *)
Fixpoint enter_until (lca : option string) (acc : list string)
    (l : list string) : list string :=
  match l with
  | [] => acc
  | s :: rest =>
      if bool_decide (Some s = lca) then acc
      else enter_until lca (s :: acc) rest
  end.

Definition exited_for (config : gset string) (b : string) : list string :=
  filter (fun d => d ∈ config) (reverse (descendants_for sc b))
  ++ (if bool_decide (b ∈ config) then [b] else []).

(** The body of the loop of [_compute_transitions_steps]. *)
Definition compute_transition_step (config : gset string)
    (ev : option Event) (t : Transition) : MicroStep :=
  match to_state t with
  | None => MicroStep_init ev (Some t) (Some []) (Some [])
  | Some target =>
      let lca := least_common_ancestor sc (from_state t) target in
      let from_ancestors := ancestors_for sc (from_state t) in
      let to_ancestors := ancestors_for sc target in
      let b := last_before lca (from_state t) from_ancestors in
      let exited := exited_for config b in
      let entered := enter_until lca [target] to_ancestors in
      MicroStep_init ev (Some t) (Some entered) (Some exited)
  end.

Definition _compute_transitions_steps (ev : option Event)
    (ts : list Transition) (st : St) : list MicroStep :=
  map (compute_transition_step (_configuration st) ev) ts.

(** *** [_compute_stabilization_step] *)

(** key [depth_of(x)] on state names *)
Definition name_depth_le (a b : string) : bool :=
  Nat.leb (depth_of sc a) (depth_of sc b).

(** The branch for a history leaf. [self._memory.get(name, [initial])]
    returns the stored list itself when there is one, and [sort] sorts that
    list in place: the memory entry is the sorted list afterwards. *)
Definition history_step (name initial : string) : M EvalState MicroStep :=
  fun st =>
    let states_to_enter :=
      sorted name_depth_le (default [initial] (_memory st !! name)) in
    let st' :=
      match _memory st !! name with
      | Some _ => set_memory st (<[name := states_to_enter]> (_memory st))
      | None => st
      end in
    (st', Returns (MicroStep_init None None (Some states_to_enter)
                     (Some [name]))).

(** The loop over the leaves; [None] when it ends without a [return]. *)
Fixpoint stabilization_scan (leaves : list string)
    : M EvalState (option MicroStep) :=
  match leaves with
  | [] => ret None
  | leaf :: rest =>
      match states sc !! leaf with
      | None => raise (KeyError leaf)
      | Some (HistoryState name initial _) =>
          step <~ history_step name initial; ret (Some step)
      | Some (OrthogonalState _ _ _ children _) =>
          ret (Some (MicroStep_init None None (Some children) None))
      | Some (CompoundState _ initial _ _ _ _) =>
          match truthy initial with
          | Some i => ret (Some (MicroStep_init None None (Some [i]) None))
          | None => stabilization_scan rest
          end
      | Some _ => stabilization_scan rest
      end
  end.

Definition _compute_stabilization_step : M EvalState (option MicroStep) :=
  fun st =>
    stabilization_scan (leaf_for sc (elements (_configuration st))) st.

(** *** [_execute_step] *)

(** [list(map(lambda s: states[s], names))] *)
Fixpoint lookup_states (names : list string) : outcome (list State) :=
  match names with
  | [] => Returns []
  | n :: rest =>
      match states sc !! n with
      | None => Raises (KeyError n)
      | Some s => l ← lookup_states rest; Returns (s :: l)
      end
  end.

(** [for event in execute_action(code): self.send(event, internal=True)] *)
Definition run_and_send (code : string) (st : St) : St :=
  let '(e, emitted) := execute_action (_evaluator st) code None in
  foldl (fun st ev => send ev true st) (set_evaluator st e) emitted.

Definition run_actions (get_action : State -> option string)
    (l : list State) (st : St) : St :=
  foldl (fun st s =>
           match get_action s with
           | Some code => run_and_send code st
           | None => st
           end) st l.

(** The memory recorded for one history child of the exited compound
    state [name]. *)
Definition record_history (name : string) (children : list string)
    (child : State) : M EvalState unit :=
  match child with
  | HistoryState hname _ deep =>
      fun st =>
        let active : gset string :=
          if deep
          then _configuration st ∩ list_to_set (descendants_for sc name)
          else _configuration st ∩ list_to_set children in
        let ok :=
          if deep then bool_decide (1 ≤ size active)
          else bool_decide (size active = 1) in
        if ok
        then (set_memory st (<[hname := elements active]> (_memory st)),
              Returns tt)
        else (st, Raises AssertionError)
  | _ => ret tt
  end.

Fixpoint record_children (name : string) (children todo : list string)
    : M EvalState unit :=
  match todo with
  | [] => ret tt
  | child_name :: rest =>
      match states sc !! child_name with
      | None => raise (KeyError child_name)
      | Some child =>
          _ <~ record_history name children child;
          record_children name children rest
      end
  end.

(** The loop over [exited_compound_states]. *)
Fixpoint record_memory (exited : list State) : M EvalState unit :=
  match exited with
  | [] => ret tt
  | CompoundState name _ _ _ children _ :: rest =>
      _ <~ record_children name children children;
      record_memory rest
  | _ :: rest => record_memory rest
  end.

(** [if step.transition and step.transition.action: execute_action(...)]:
    the call is a statement, its result is not used. *)
Definition run_transition_action (step : MicroStep) (st : St) : St :=
  match ms_transition step with
  | Some t =>
      match truthy (action t) with
      | Some code =>
          set_evaluator st
            (execute_action (_evaluator st) code (ms_event step)).1
      | None => st
      end
  | None => st
  end.

Definition _execute_step (step : MicroStep) : M EvalState unit :=
  entered <~ lift (fun _ => lookup_states (entered_states step));
  exited <~ lift (fun _ => lookup_states (exited_states step));
  _ <~ modify (run_actions state_on_exit exited);
  _ <~ record_memory exited;
  _ <~ modify (fun st =>
        set_configuration st
          (_configuration st ∖ list_to_set (exited_states step)));
  _ <~ modify (run_transition_action step);
  _ <~ modify (run_actions state_on_entry entered);
  modify (fun st =>
        set_configuration st
          (_configuration st ∪ list_to_set (entered_states step))).

(** *** [_stabilize], [_start], [execute_once] *)

(** The [while step:] loop, at most [fuel] iterations of its test. *)
Fixpoint _stabilize (fuel : nat) : M EvalState (list MicroStep) :=
  match fuel with
  | O => fun st => (st, Unfinished)
  | S fuel' =>
      step <~ _compute_stabilization_step;
      match step with
      | None => ret []
      | Some s =>
          _ <~ _execute_step s;
          more <~ _stabilize fuel';
          ret (s :: more)
      end
  end.

Definition _start (fuel : nat) : M EvalState (list MicroStep) :=
  _ <~ modify (fun st =>
        match truthy (sc_on_entry sc) with
        | Some code =>
            set_evaluator st (execute_action (_evaluator st) code None).1
        | None => st
        end);
  let step := MicroStep_init None None (Some [sc_initial sc]) None in
  _ <~ _execute_step step;
  more <~ _stabilize fuel;
  ret (step :: more).

(** [Interpreter.__init__], for a fresh evaluator [e]. *)
Definition Interpreter_init (e : EvalState) (fuel : nat)
    : St * outcome (list MicroStep) :=
  _start fuel (mkInterpreter e ∅ ∅ []).

Fixpoint execute_steps (l : list MicroStep) : M EvalState unit :=
  match l with
  | [] => ret tt
  | s :: rest => _ <~ _execute_step s; execute_steps rest
  end.

(** The part of [execute_once] after the selection. *)
Definition fire (fuel : nat) (ev : option Event) (ts : list Transition)
    : M EvalState (option MacroStep) :=
  sorted_ts <~ lift (fun _ => _sort_transitions ts);
  fired <~ lift (fun st => Returns (_compute_transitions_steps ev sorted_ts st));
  _ <~ execute_steps fired;
  stabilization_steps <~ _stabilize fuel;
  ret (Some (mkMacroStep (fired ++ stabilization_steps))).

Definition execute_once (fuel : nat) : M EvalState (option MacroStep) :=
  eventless <~ lift _select_eventless_transitions;
  match eventless with
  | [] =>
      fun st =>
        match _events st with
        | ev :: queue =>
            (ts <~ lift (_select_transitions (Some ev));
             match ts with
             | [] => ret (Some (mkMacroStep
                                   [MicroStep_init (Some ev) None None None]))
             | _ => fire fuel (Some ev) ts
             end) (set_events st queue)
        | [] => (st, Returns None)
        end
  | _ => fire fuel None eventless
  end.

End Interpreter.

(** ** A statechart built from its list of states *)

(** The hierarchy queries come from [sismic/model.py], which the
    interpreter consumes as a query interface. *)
Module Tree.

Definition children_of (s : State) : list string :=
  match s with
  | CompoundState _ _ _ _ ch _ | OrthogonalState _ _ _ ch _ => ch
  | _ => []
  end.

Definition table (l : list State) : gmap string State :=
  list_to_map (map (fun s => (state_name s, s)) l).

Definition parent_of (l : list State) (n : string) : option string :=
  match list_find (fun s => n ∈ children_of s) l with
  | Some (_, s) => Some (state_name s)
  | None => None
  end.

Fixpoint ancestors (l : list State) (fuel : nat) (n : string) : list string :=
  match fuel with
  | O => []
  | S fuel' =>
      match parent_of l n with
      | None => []
      | Some p => p :: ancestors l fuel' p
      end
  end.

Fixpoint level_order (l : list State) (fuel : nat) (todo : list string)
    : list string :=
  match fuel, todo with
  | S fuel', n :: rest =>
      let ch := from_option children_of [] (table l !! n) in
      ch ++ level_order l fuel' (rest ++ ch)
  | _, _ => []
  end.

Definition first_common (l1 l2 : list string) : option string :=
  snd <$> list_find (fun a => a ∈ l2) l1.

(** Modelled from the spec: the hierarchy queries of the statechart
    (ancestors, descendants, least common ancestor, depth, leaves) for the
    tree given by the [children] of the composite states in [l].
    [ancestors_for] goes root-ward from the parent and excludes the state,
    [descendants_for] lists level by level and excludes the state,
    [depth_of] counts the state and its ancestors, [leaf_for] keeps the
    names that have no descendant in the list. The least common ancestor
    is the deepest common proper ancestor, or [None] when there is none,
    which is what [_sort_transitions] and [_compute_transitions_steps]
    expect of it; with [reflexive] the two states count among their own
    ancestors, as in the glossary of the specification. *)
Definition chart (reflexive : bool) (l : list State) (initial : string)
    (on_entry : option string) : StateChart :=
  let anc := ancestors l (length l) in
  let desc := fun n => level_order l (S (length l)) [n] in
  {| states := table l;
     sc_initial := initial;
     sc_on_entry := on_entry;
     ancestors_for := anc;
     descendants_for := desc;
     least_common_ancestor := fun a b =>
       if reflexive then first_common (a :: anc a) (b :: anc b)
       else first_common (anc a) (anc b);
     depth_of := fun n => S (length (anc n));
     leaf_for := fun names =>
       filter (fun n => Forall (fun d => d ∉ names) (desc n)) names |}.

End Tree.

(** ** An evaluator that records its calls *)

(** Each character of an action is the name of an event that the action
    raises; the guard ["0"] is false and every other guard true. The
    evaluator state is the list of the calls to [execute_action], oldest
    first. *)
Module Recorder.

Definition state : Type := list (string * option Event).

Definition raised (code : string) : list Event :=
  map (fun c => mkEvent (String c EmptyString)) (list_ascii_of_string code).

Definition evaluate_condition (_ : state) (g : string) (_ : option Event)
    : bool :=
  negb (String.eqb g "0").

Definition execute_action (e : state) (code : string) (ev : option Event)
    : state * list Event :=
  (e ++ [(code, ev)], raised code).

End Recorder.

(** ** Statements of the specification *)

Section Statements.
Variable sc : StateChart.

(** The consistency of a configuration: with a state, all its ancestors. *)
Definition consistent (config : gset string) : Prop :=
  ∀ s a, s ∈ config → a ∈ ancestors_for sc s → a ∈ config.

(** The states of a root-ward ancestor list that come before [lca]: the
    ancestors strictly below it. *)
Fixpoint below (lca : option string) (l : list string) : list string :=
  match l with
  | [] => []
  | s :: rest => if bool_decide (Some s = lca) then [] else s :: below lca rest
  end.

(** The child of [lca] on the side of [source]: the last of [source] and
    its ancestors strictly below [lca]. *)
Definition branch_of (lca : option string) (source : string) : string :=
  List.last (below lca (ancestors_for sc source)) source.

Definition deeper_first (a b : string) : Prop :=
  depth_of sc b ≤ depth_of sc a.

Definition shallower_first (a b : string) : Prop :=
  depth_of sc a < depth_of sc b.

(** What is wrong with a pair of transitions, if anything: its least
    common ancestor is not an orthogonal state, or else the target of one
    of the two is outside the branch of its source. *)
Definition pair_lca (p : Transition * Transition) : option string :=
  least_common_ancestor sc (from_state p.1) (from_state p.2).

Definition lca_orthogonal (p : Transition * Transition) : Prop :=
  ∃ lca name e x ch ts, pair_lca p = Some lca
    ∧ states sc !! lca = Some (OrthogonalState name e x ch ts).

Definition stays_in_branch (lca : option string) (t : Transition) : Prop :=
  ∃ target, to_state t = Some target
    ∧ (target = branch_of lca (from_state t)
       ∨ target ∈ descendants_for sc (branch_of lca (from_state t))).

Definition escapes (p : Transition * Transition) : Prop :=
  ¬ stays_in_branch (pair_lca p) p.1 ∨ ¬ stays_in_branch (pair_lca p) p.2.

(** A pair that passes, and the two ways in which a pair fails. *)
Definition sound (p : Transition * Transition) : Prop :=
  lca_orthogonal p ∧ ¬ escapes p.

Definition fault (p : Transition * Transition) (k : WarningKind) : Prop :=
  match k with
  | NonDeterminist => ¬ lca_orthogonal p
  | Conflicting => lca_orthogonal p ∧ escapes p
  end.

(** The order of firing that the specification words: deeper sources
    first, and the name of the source descending among equal depths. *)
Definition fires_before_claimed (a b : Transition) : Prop :=
  depth_of sc (from_state b) < depth_of sc (from_state a)
  ∨ (depth_of sc (from_state a) = depth_of sc (from_state b)
     ∧ String.le (from_state b) (from_state a)).

(** The same with the name ascending among equal depths, as the comment in
    [_sort_transitions] has it. *)
Definition fires_before (a b : Transition) : Prop :=
  depth_of sc (from_state b) < depth_of sc (from_state a)
  ∨ (depth_of sc (from_state a) = depth_of sc (from_state b)
     ∧ String.le (from_state a) (from_state b)).

(** The errors of the ordering as the specification words them: one pair
    with a least common ancestor that is not orthogonal gives the
    non-determinism error, one target outside its branch the conflict
    error. *)
Definition error_by_any_pair : Prop :=
  ∀ ts, 1 < length ts →
    ((∃ p, p ∈ combinations2 ts ∧ ¬ lca_orthogonal p) →
     _sort_transitions sc ts = Raises (Warning NonDeterminist))
    ∧ ((∃ p, p ∈ combinations2 ts ∧ escapes p) →
       _sort_transitions sc ts = Raises (Warning Conflicting)).

(** [a] is nearer to the front of the queue than [b]. *)
Definition ahead_of (a b : Event) (queue : list Event) : Prop :=
  ∃ i j, i < j ∧ queue !! i = Some a ∧ queue !! j = Some b.

(** A leaf on which the stabilizer has nothing to do. *)
Definition stable_leaf (s : State) : Prop :=
  match s with
  | BasicState _ _ _ _ | FinalState _ _ _ => True
  | CompoundState _ initial _ _ _ _ => initial = None
  | OrthogonalState _ _ _ _ _ | HistoryState _ _ _ => False
  end.

(** A compound state that owns a history child. *)
Definition owns_history (s : State) : Prop :=
  match s with
  | CompoundState _ _ _ _ children _ =>
      ∃ c h i d, c ∈ children ∧ states sc !! c = Some (HistoryState h i d)
  | _ => False
  end.

(** The memory after the computation of a stabilization step with the
    outcome [o]: a step that exits a state [h] is the step of the history
    state [h], and the list stored for [h], if there is one, has been
    sorted in place by ascending depth; nothing else is written. *)
Definition sorted_in_place (m : gmap string (list string))
    (o : outcome (option MicroStep)) : gmap string (list string) :=
  match o with
  | Returns (Some step) =>
      match exited_states step with
      | [h] =>
          match m !! h with
          | Some l => <[h := sorted (name_depth_le sc) l]> m
          | None => m
          end
      | _ => m
      end
  | _ => m
  end.

End Statements.

Section Emissions.
Context {EvalState : Type}.
Variable execute_action :
  EvalState -> string -> option Event -> EvalState * list Event.
Variable sc : StateChart.

(** The events raised by the exit (or entry) actions of the states [l],
    one list for each action that runs, in the order of the runs, and the
    evaluator after them. *)
Fixpoint action_trace (get_action : State -> option string) (l : list State)
    (e : EvalState) : EvalState * list (list Event) :=
  match l with
  | [] => (e, [])
  | s :: rest =>
      match get_action s with
      | None => action_trace get_action rest e
      | Some code =>
          let r := execute_action e code None in
          let r' := action_trace get_action rest r.1 in
          (r'.1, r.2 :: r'.2)
      end
  end.

(** The evaluator after the action of the transition of [step], if it has
    one. *)
Definition after_transition (step : MicroStep) (e : EvalState) : EvalState :=
  match ms_transition step ≫= fun t => truthy (action t) with
  | Some code => (execute_action e code (ms_event step)).1
  | None => e
  end.

(** The events raised by the exit and entry actions of a micro-step applied
    in [st], action by action. *)
Definition emissions (step : MicroStep) (st : Interpreter EvalState)
    : list (list Event) :=
  match lookup_states sc (entered_states step),
        lookup_states sc (exited_states step) with
  | Returns entered, Returns exited =>
      let r := action_trace state_on_exit exited (_evaluator st) in
      r.2 ++ (action_trace state_on_entry entered
                (after_transition step r.1)).2
  | _, _ => []
  end.

End Emissions.

(** ** Example statecharts *)

Module Charts.

Definition on (e : string) (source target : string) : Transition :=
  mkTransition source (Some target) (Some (mkEvent e)) None None.

Definition basic (n : string) (ts : list Transition) : State :=
  BasicState n None None ts.

Definition compound (n init : string) (ch : list string)
    (ts : list Transition) : State :=
  CompoundState n (Some init) None None ch ts.

Definition orthogonal (n : string) (ch : list string) (ts : list Transition)
    : State :=
  OrthogonalState n None None ch ts.

Abbreviation eval := Recorder.evaluate_condition.
Abbreviation exec := Recorder.execute_action.

(** A started interpreter with the events [evs] sent to it in turn. *)
Definition started (sc : StateChart) (evs : list string)
    : Interpreter Recorder.state :=
  foldl (fun st e => send (mkEvent e) false st)
        (Interpreter_init exec sc [] 10).1 evs.

(** An orthogonal state [A], itself a region of [O], with a transition of
    its own; [x] in its region [R1] has a transition on the same event. *)
Definition nested_states : list State :=
  [ orthogonal "O" ["A"; "B"] [];
    orthogonal "A" ["R1"; "R2"] [on "e" "A" "A"];
    basic "B" [];
    compound "R1" "x" ["x"; "y"] [];
    compound "R2" "z" ["z"] [];
    basic "x" [on "e" "x" "y"];
    basic "y" [];
    basic "z" [] ].

Definition nested (reflexive : bool) : StateChart :=
  Tree.chart reflexive nested_states "O" None.

Definition run_nested (reflexive : bool)
    : Interpreter Recorder.state * outcome (option MacroStep) :=
  execute_once eval exec (nested reflexive) 10
    (started (nested reflexive) ["e"]).

(** The same with a compound region [A] around the orthogonal state. *)
Definition wrapped_states : list State :=
  [ orthogonal "O" ["A"; "B"] [];
    compound "A" "P" ["P"] [on "e" "A" "A"];
    basic "B" [];
    orthogonal "P" ["R1"; "R2"] [];
    compound "R1" "x" ["x"; "y"] [];
    compound "R2" "z" ["z"] [];
    basic "x" [on "e" "x" "y"];
    basic "y" [];
    basic "z" [] ].

Definition wrapped : StateChart := Tree.chart false wrapped_states "O" None.

(** Two regions: [s1] leaves its region, [s2] has two transitions on the
    same event. *)
Definition t1 : Transition := on "e" "s1" "s2".
Definition t2 : Transition := on "e" "s2" "s2".
Definition t3 : Transition := on "e" "s2" "s3".

Definition rival_states : list State :=
  [ orthogonal "O" ["R1"; "R2"] [];
    compound "R1" "s1" ["s1"] [];
    compound "R2" "s2" ["s2"; "s3"] [];
    basic "s1" [t1];
    basic "s2" [t2; t3];
    basic "s3" [] ].

Definition rival (reflexive : bool) : StateChart :=
  Tree.chart reflexive rival_states "O" None.

(** Two basic regions with a loop each. *)
Definition ta : Transition := on "e" "a" "a".
Definition tb : Transition := on "e" "b" "b".

Definition twin_states : list State :=
  [ orthogonal "O" ["a"; "b"] []; basic "a" [ta]; basic "b" [tb] ].

Definition twin : StateChart := Tree.chart false twin_states "O" None.

(** Actions: leaving [s] raises [x] then [y], the transition raises [a],
    entering [t] raises [n]. *)
Definition go : Transition :=
  mkTransition "s" (Some "t") (Some (mkEvent "go")) None (Some "a").

Definition acting_states : list State :=
  [ BasicState "s" None (Some "xy") [go]; BasicState "t" (Some "n") None [] ].

Definition acting : StateChart := Tree.chart false acting_states "s" None.

Definition go_step : MicroStep :=
  mkMicroStep (Some (mkEvent "go")) (Some go) ["t"] ["s"].

(** A deep history [h] in [S]; [a1] is active in [a] when [S] is left. *)
Definition remembering_states : list State :=
  [ compound "S" "a" ["h"; "a"] [];
    HistoryState "h" "a" true;
    compound "a" "a1" ["a1"] [];
    basic "a1" [on "leave" "a1" "out"];
    basic "out" [on "back" "out" "h"] ].

Definition remembering : StateChart :=
  Tree.chart false remembering_states "S" None.

(** [S] has been left, and the transition back to [h] has been applied:
    the stabilizer is about to run on the leaf [h]. *)
Definition at_history : Interpreter Recorder.state :=
  let left :=
    (execute_once eval exec remembering 10
       (started remembering ["leave"])).1 in
  (_execute_step exec remembering
     (mkMicroStep (Some (mkEvent "back")) (Some (on "back" "out" "h"))
        ["S"; "h"] ["out"]) left).1.

End Charts.

(** ** The rest of the interface of [Interpreter] *)

Section Driver.
Context {EvalState : Type}.
Variable evaluate_condition : EvalState -> string -> option Event -> bool.
Variable execute_action :
  EvalState -> string -> option Event -> EvalState * list Event.
Variable sc : StateChart.

(** The [configuration] property:
    [sorted(self._configuration, key=depth_of)]. *)
Definition configuration (st : Interpreter EvalState) : list string :=
  sorted (name_depth_le sc) (elements (_configuration st)).

(** The loop of the [running] property: [True] at the first leaf that is
    not a final state. *)
Fixpoint running_scan (leaves : list string) : outcome bool :=
  match leaves with
  | [] => Returns false
  | leaf :: rest =>
      match states sc !! leaf with
      | None => Raises (KeyError leaf)
      | Some (FinalState _ _ _) => running_scan rest
      | Some _ => Returns true
      end
  end.

Definition running (st : Interpreter EvalState) : outcome bool :=
  running_scan (leaf_for sc (elements (_configuration st))).

(** The [while macro_step:] loop of [execute], entered with the counter
    [i] and the result of the last call of [execute_once]; a macro-step is
    always true. At most [fuel] more calls of [execute_once], each with
    the bound [inner] on its stabilization loop. *)
Fixpoint execute_loop (fuel inner : nat) (max_steps i : Z)
    (macro_step : option MacroStep) : M EvalState (list MacroStep) :=
  match macro_step with
  | None => ret []
  | Some m =>
      if bool_decide (0 < max_steps)%Z && bool_decide (i + 1 = max_steps)%Z
      then ret [m]
      else
        match fuel with
        | O => fun st => (st, Unfinished)
        | S fuel' =>
            next <~ execute_once evaluate_condition execute_action sc inner;
            more <~ execute_loop fuel' inner max_steps (i + 1) next;
            ret (m :: more)
        end
  end.

(** [execute(max_steps)] *)
Definition execute (fuel inner : nat) (max_steps : Z)
    : M EvalState (list MacroStep) :=
  first <~ execute_once evaluate_condition execute_action sc inner;
  execute_loop fuel inner max_steps 0 first.

End Driver.

(** ** Statements about the selection and the driver *)

Section MoreStatements.
Context {EvalState : Type}.
Variable evaluate_condition : EvalState -> string -> option Event -> bool.
Variable execute_action :
  EvalState -> string -> option Event -> EvalState * list Event.
Variable sc : StateChart.

(** A transition that the selection accepts for [ev] in [st]: its event is
    [ev], its source is active and its guard, if any, holds. *)
Definition enabled (st : Interpreter EvalState) (ev : option Event)
    (t : Transition) : Prop :=
  event t = ev ∧ from_state t ∈ _configuration st
  ∧ guard_holds evaluate_condition (_evaluator st) ev t = true.

(** A state on which the selection finds nothing and walks on. *)
Definition quiet (st : Interpreter EvalState) (ev : option Event)
    (s : string) : Prop :=
  ∃ state, states sc !! s = Some state
    ∧ ∀ t, t ∈ state_transitions state → ¬ enabled st ev t.

(** The states that the selection visits: a leaf of the configuration or
    one of its ancestors. *)
Definition on_leaf_path (st : Interpreter EvalState) (s : string) : Prop :=
  ∃ leaf, leaf ∈ leaf_for sc (elements (_configuration st))
    ∧ s ∈ leaf :: ancestors_for sc leaf.

(** The errors of the recording of the history memory: a failed
    assertion, or a child that is not a state of the chart. *)
Definition memory_error (e : Exn) : Prop :=
  e = AssertionError ∨ ∃ k, e = KeyError k ∧ states sc !! k = None.

(** Nothing to do: no eventless transition is enabled and the queue is
    empty. *)
Definition idle (st : Interpreter EvalState) : Prop :=
  _select_eventless_transitions evaluate_condition sc st = Returns []
  ∧ _events st = [].

(** What a history child records when its parent [name] is exited in the
    configuration [config]. *)
Definition remembered (config : gset string) (name : string)
    (children : list string) (deep : bool) : list string :=
  elements
    (if deep then config ∩ list_to_set (descendants_for sc name)
     else config ∩ list_to_set children).

End MoreStatements.

(** ** More example statecharts *)

Module Preorder.

(** The descendants of [n], each child followed by its own descendants. *)
Fixpoint depth_first (l : list State) (fuel : nat) (n : string)
    : list string :=
  match fuel with
  | O => []
  | S fuel' =>
      flat_map (fun c => c :: depth_first l fuel' c)
        (from_option Tree.children_of [] (Tree.table l !! n))
  end.

(** Modelled from the spec: the hierarchy queries of [Tree.chart], but
    with [descendants_for] in depth-first order; the interface of the
    hierarchy gives the descendants in an order that is consistent and
    otherwise not specified. *)
Definition chart (l : list State) (initial : string) : StateChart :=
  let base := Tree.chart false l initial None in
  {| states := states base;
     sc_initial := sc_initial base;
     sc_on_entry := sc_on_entry base;
     ancestors_for := ancestors_for base;
     descendants_for := depth_first l (length l);
     least_common_ancestor := least_common_ancestor base;
     depth_of := depth_of base;
     leaf_for := fun names =>
       filter (fun n => Forall (fun d => d ∉ names)
                          (depth_first l (length l) n)) names |}.

(** Two regions, the first with a nested state; [B] leaves [S]. *)
Definition leaving : Transition := Charts.on "e" "B" "out".

Definition crossing_states : list State :=
  [ Charts.orthogonal "S" ["A"; "B"] [];
    Charts.compound "A" "A1" ["A1"] [];
    Charts.basic "A1" [];
    Charts.basic "B" [leaving];
    Charts.basic "out" [] ].

Definition crossing : StateChart := chart crossing_states "S".

End Preorder.

Module Towers.

(** A single leaf below two states that both have a transition on [e]. *)
Definition tower_states : list State :=
  [ Charts.compound "top" "mid" ["mid"] [Charts.on "e" "top" "top"];
    Charts.compound "mid" "leaf" ["leaf"] [Charts.on "e" "mid" "mid"];
    Charts.basic "leaf" [] ].

Definition tower : StateChart := Tree.chart false tower_states "top" None.

End Towers.

Section Iteration.
Context {EvalState : Type}.
Variable evaluate_condition : EvalState -> string -> option Event -> bool.
Variable execute_action :
  EvalState -> string -> option Event -> EvalState * list Event.
Variable sc : StateChart.

(** At most [n] calls of [execute_once], one after the other, until one
    returns [None]: the macro-steps in their order. There is no bound on
    a loop here: the recursion is on [n]. *)
Fixpoint run_at_most (n inner : nat) : M EvalState (list MacroStep) :=
  match n with
  | O => ret []
  | S n' =>
      macro_step <~
        execute_once evaluate_condition execute_action sc inner;
      match macro_step with
      | None => ret []
      | Some m => more <~ run_at_most n' inner; ret (m :: more)
      end
  end.

End Iteration.

(** ** The selection with an evaluator that can raise *)

(** [_select_transitions] again, with [evaluate_condition] as the code has
    it: the call gives a truth value or raises, and an exception of a guard
    leaves the loops. *)
Module Raising.

Section Selection.
Context {EvalState : Type}.
Variable evaluate_condition :
  EvalState -> string -> option Event -> outcome bool.
Variable sc : StateChart.

(** [transition.guard is None or evaluate_condition(guard, event)] *)
Definition guard_holds (e : EvalState) (ev : option Event) (t : Transition)
    : outcome bool :=
  match guard t with
  | None => Returns true
  | Some g => evaluate_condition e g ev
  end.

(** The innermost [for], with [transition_found] and the list collected so
    far. *)
Fixpoint scan_transitions (st : Interpreter EvalState) (ev : option Event)
    (ts : list Transition) (found : bool) (acc : list Transition)
    : outcome (bool * list Transition) :=
  match ts with
  | [] => Returns (found, acc)
  | t :: rest =>
      if bool_decide (event t ≠ ev)
         || bool_decide (from_state t ∉ _configuration st)
      then scan_transitions st ev rest found acc
      else
        match guard_holds (_evaluator st) ev t with
        | Returns true =>
            scan_transitions st ev rest true
              (if bool_decide (t ∈ acc) then acc else acc ++ [t])
        | Returns false => scan_transitions st ev rest found acc
        | Raises e => Raises e
        | Unfinished => Unfinished
        end
  end.

(** The walk over [[leaf] + ancestors_for(leaf)]. *)
Fixpoint select_from (st : Interpreter EvalState) (ev : option Event)
    (acc : list Transition) (path : list string)
    : outcome (list Transition) :=
  match path with
  | [] => Returns acc
  | s :: rest =>
      match states sc !! s with
      | None => Raises (KeyError s)
      | Some state =>
          match scan_transitions st ev (state_transitions state) false acc
          with
          | Returns (true, acc') => Returns acc'
          | Returns (false, acc') => select_from st ev acc' rest
          | Raises e => Raises e
          | Unfinished => Unfinished
          end
      end
  end.

Fixpoint select_leaves (st : Interpreter EvalState) (ev : option Event)
    (leaves : list string) (acc : list Transition)
    : outcome (list Transition) :=
  match leaves with
  | [] => Returns acc
  | leaf :: rest =>
      match select_from st ev acc (leaf :: ancestors_for sc leaf) with
      | Returns acc' => select_leaves st ev rest acc'
      | Raises e => Raises e
      | Unfinished => Unfinished
      end
  end.

Definition _select_transitions (ev : option Event)
    (st : Interpreter EvalState) : outcome (list Transition) :=
  select_leaves st ev (leaf_for sc (elements (_configuration st))) [].

(** The guard of a transition that the selection looks at raises [e]: the
    transition is one of a leaf of the configuration or of an ancestor of
    a leaf, it has the event and its source is active. *)
Definition guard_raises (st : Interpreter EvalState) (ev : option Event)
    (e : Exn) : Prop :=
  ∃ s state t g,
    on_leaf_path sc st s ∧ states sc !! s = Some state
    ∧ t ∈ state_transitions state
    ∧ event t = ev ∧ from_state t ∈ _configuration st
    ∧ guard t = Some g
    ∧ evaluate_condition (_evaluator st) g ev = Raises e.

End Selection.

(** The evaluator of [Recorder], as one that raises nothing. *)
Definition total (e : Recorder.state) (g : string) (ev : option Event)
    : outcome bool :=
  Returns (Recorder.evaluate_condition e g ev).

(** An evaluator for which the guard ["!"] is a failed assertion. *)
Definition asserting (e : Recorder.state) (g : string) (ev : option Event)
    : outcome bool :=
  if String.eqb g "!" then Raises AssertionError
  else Returns (Recorder.evaluate_condition e g ev).

(** One state, with a transition on [e] guarded by ["!"]. *)
Definition guarded : StateChart :=
  Tree.chart false
    [ Charts.basic "s"
        [mkTransition "s" (Some "s") (Some (mkEvent "e")) (Some "!") None] ]
    "s" None.

End Raising.

(** * Properties *)

(** ** Deciding the statements on examples *)

Lemma consistent_alt (sc : StateChart) (config : gset string) :
  consistent sc config
  ↔ Forall (fun s => Forall (fun a => a ∈ config) (ancestors_for sc s))
      (elements config).
Proof.
  unfold consistent. rewrite Forall_forall. split.
  - intros H s Hs. apply Forall_forall. intros a Ha.
    apply (H s a); [by apply elem_of_elements | done].
  - intros H s a Hs Ha. apply elem_of_elements, H in Hs.
    rewrite Forall_forall in Hs. by apply Hs.
Qed.

#[global] Instance consistent_dec sc config : Decision (consistent sc config).
Proof.
  refine (cast_if (decide (Forall (fun s =>
            Forall (fun a => a ∈ config) (ancestors_for sc s))
            (elements config)))); by rewrite consistent_alt.
Defined.

Ltac by_computation := compute_done.

(** ** The step model *)

(** C10: for every macro-step the [event] property is [None], also when
    the first micro-step carries the event that was consumed. *)
Theorem MacroStep_event_None (m : MacroStep) : MacroStep_event m = None.
Proof.
  unfold MacroStep_event. by destruct (steps m !! 0%nat).
Qed.

Example MacroStep_event_consumed :
  MacroStep_event
    (mkMacroStep [MicroStep_init (Some (mkEvent "X")) None None None]) = None.
Proof. reflexivity. Qed.

(** ** Consistency of the configuration *)

(** C1: the configuration reached by a completed [execute_once] can hold a
    state without its parent. In the chart [Charts.nested] the transition
    of the region [A] and the transition of [x] inside [A] are selected
    for the same event and pass both checks of [_sort_transitions]; after
    the macro-step [y] is active and its parent [R1] is not. This is so
    for both readings of the least common ancestor. *)
Theorem consistency_lost_with_nested_sources (reflexive : bool) :
  let sc := Charts.nested reflexive in
  consistent sc (_configuration (Charts.started sc ["e"]))
  ∧ (∃ m, snd (Charts.run_nested reflexive) = Returns (Some m))
  ∧ "y" ∈ _configuration (fst (Charts.run_nested reflexive))
  ∧ "R1" ∈ ancestors_for sc "y"
  ∧ ("R1" ∉ _configuration (fst (Charts.run_nested reflexive)))
  ∧ ¬ consistent sc (_configuration (fst (Charts.run_nested reflexive))).
Proof.
  destruct reflexive; cbv zeta.
  all: split; [by_computation|].
  all: split; [eexists; vm_compute; reflexivity|].
  all: split; [by_computation|].
  all: split; [by_computation|].
  all: split; by_computation.
Qed.

(** The same with a compound region around the orthogonal state. *)
Lemma consistency_lost_with_wrapped_sources :
  let after :=
    execute_once Charts.eval Charts.exec Charts.wrapped 10
      (Charts.started Charts.wrapped ["e"]) in
  (∃ m, snd after = Returns (Some m))
  ∧ ¬ consistent Charts.wrapped (_configuration (fst after)).
Proof.
  cbv zeta. split; [eexists; vm_compute; reflexivity|].
  by_computation.
Qed.

(** ** The stable sort *)

Lemma StronglySorted_weaken {A} (R1 R2 : relation A) (l : list A) :
  (∀ x y, R1 x y → R2 x y) → StronglySorted R1 l → StronglySorted R2 l.
Proof.
  intros HR. induction 1 as [|x l Hl IH Hx]; constructor; [done|].
  eapply Forall_impl; [exact Hx|]. apply HR.
Qed.

Section StableSort.
Context {A : Type} (le : A -> A -> bool).
Hypothesis le_total : ∀ x y, le x y = true ∨ le y x = true.
Hypothesis le_trans : ∀ x y z, le x y = true → le y z = true → le x z = true.

Lemma insert_by_Permutation (x : A) (l : list A) : insert_by le x l ≡ₚ x :: l.
Proof.
  induction l as [|y l IH]; simpl; [done|].
  destruct (le x y); [done|]. rewrite IH. apply perm_swap.
Qed.

Lemma sorted_Permutation (l : list A) : sorted le l ≡ₚ l.
Proof.
  induction l as [|x l IH]; simpl; [done|].
  by rewrite insert_by_Permutation, IH.
Qed.

(** Sorting a list that is in order for [R] keeps [R] among the elements
    that [le] does not tell apart: this is where stability shows. *)
Definition refined (R : relation A) (x y : A) : Prop :=
  le x y = true ∧ (le y x = true → R x y).

Lemma insert_by_refined (R : relation A) (x : A) (l : list A) :
  StronglySorted (refined R) l →
  Forall (R x) l →
  StronglySorted (refined R) (insert_by le x l).
Proof.
  induction l as [|y l IH]; simpl; intros Hl Hx.
  - repeat constructor.
  - apply StronglySorted_inv in Hl as [Hl Hy].
    apply Forall_cons in Hx as [Hxy Hx].
    destruct (le x y) eqn:E.
    + constructor; [by constructor|].
      constructor; [by split|].
      rewrite Forall_forall in Hy, Hx |- *. intros z Hz. split.
      * eapply le_trans; [exact E|]. by apply Hy.
      * intros _. by apply Hx.
    + constructor; [by apply IH|].
      rewrite (insert_by_Permutation x l). constructor; [|done].
      split; [|by rewrite E].
      by destruct (le_total x y) as [?|?]; [congruence|].
Qed.

Lemma sorted_refined (R : relation A) (l : list A) :
  StronglySorted R l → StronglySorted (refined R) (sorted le l).
Proof.
  induction 1 as [|x l Hl IH Hx]; simpl; [constructor|].
  apply insert_by_refined; [done|]. by rewrite sorted_Permutation.
Qed.

Lemma sorted_StronglySorted (l : list A) :
  StronglySorted (fun x y => le x y = true) (sorted le l).
Proof.
  assert (Hl : StronglySorted (fun _ _ => True) l).
  { induction l; constructor; [done|]. by apply Forall_forall. }
  apply (sorted_refined _) in Hl.
  eapply StronglySorted_weaken; [|exact Hl]. by intros x y [? _].
Qed.

(** Elements with equal keys keep their order. *)
Lemma insert_by_filter (P : A → Prop) `{∀ x, Decision (P x)} x l :
  (∀ y, y ∈ l → P x → P y → le x y = true) →
  filter P (insert_by le x l) = filter P (x :: l).
Proof.
  induction l as [|y l IH]; intros Hle; simpl; [done|].
  destruct (le x y) eqn:E; [done|].
  rewrite filter_cons, IH by (intros; apply Hle; [by right|done..]).
  rewrite !filter_cons.
  destruct (decide (P y)) as [Hy|]; [|done].
  destruct (decide (P x)) as [Hx|]; [|done].
  rewrite Hle in E; [done|by left|done..].
Qed.

Lemma sorted_stable (P : A → Prop) `{∀ x, Decision (P x)} (l : list A) :
  (∀ x y, P x → P y → le x y = true) →
  filter P (sorted le l) = filter P l.
Proof.
  intros Hle. induction l as [|x l IH]; simpl; [done|].
  rewrite insert_by_filter by (intros; by apply Hle).
  by rewrite !filter_cons, IH.
Qed.

End StableSort.

Lemma StronglySorted_reverse {A} (R : relation A) (l : list A) :
  StronglySorted R l → StronglySorted (flip R) (reverse l).
Proof.
  induction 1 as [|x l Hl IH Hx]; [constructor|].
  rewrite reverse_cons. apply StronglySorted_app. split_and!.
  - intros y z Hy ->%list_elem_of_singleton.
    rewrite Forall_forall in Hx. apply Hx. by apply elem_of_reverse.
  - done.
  - repeat constructor.
Qed.

(** ** The branch below a least common ancestor *)

Lemma last_cons {A} (x d : A) (l : list A) :
  List.last (x :: l) d = List.last l x.
Proof.
  revert x d. induction l as [|y l IH]; intros x d; [done|].
  change (List.last (y :: l) d = List.last (y :: l) x). by rewrite !IH.
Qed.

Section Branch.
Variable sc : StateChart.

Lemma last_before_below (lca : option string) (cur : string)
    (l : list string) :
  last_before lca cur l = List.last (below lca l) cur.
Proof.
  revert cur. induction l as [|s l IH]; intros cur; simpl; [done|].
  case_bool_decide; [done|]. by rewrite last_cons.
Qed.

Lemma last_before_lca_branch (lca : option string) (source : string) :
  last_before_lca sc lca source = branch_of sc lca source.
Proof. apply last_before_below. Qed.

Lemma enter_until_below (lca : option string) (acc l : list string) :
  enter_until lca acc l = reverse (below lca l) ++ acc.
Proof.
  revert acc. induction l as [|s l IH]; intros acc; simpl; [done|].
  case_bool_decide; [done|].
  by rewrite IH, reverse_cons, <- app_assoc.
Qed.

Lemma below_sublist (lca : option string) (l : list string) :
  below lca l `prefix_of` l.
Proof.
  induction l as [|s l IH]; simpl; [done|].
  case_bool_decide; [apply prefix_nil|]. by apply prefix_cons.
Qed.

End Branch.

(** ** Ordering the selected transitions *)

Section Ordering.
Variable sc : StateChart.

Lemma is_orthogonal_spec (p : Transition * Transition) :
  is_orthogonal (pair_lca sc p ≫= fun n => states sc !! n) = true
  ↔ lca_orthogonal sc p.
Proof.
  unfold lca_orthogonal. destruct (pair_lca sc p) as [n|]; simpl.
  - destruct (states sc !! n) as [[]|] eqn:E; simpl;
      split; try done; try (intros (?&?&?&?&?&?&[= <-]&?); congruence).
    intros _. by repeat eexists.
  - split; [done|]. by intros (?&?&?&?&?&?&?&?).
Qed.

Lemma in_branch_spec (lca : option string) (t : Transition) :
  in_branch sc lca t = true ↔ stays_in_branch sc lca t.
Proof.
  unfold in_branch, stays_in_branch.
  rewrite last_before_lca_branch.
  destruct (to_state t) as [target|]; simpl.
  - rewrite bool_decide_eq_true, elem_of_cons. split.
    + intros H. by exists target.
    + by intros (? & [= <-] & H).
  - split; [done|]. by intros (? & ? & _).
Qed.

#[global] Instance lca_orthogonal_dec p : Decision (lca_orthogonal sc p).
Proof.
  refine (cast_if (decide
    (is_orthogonal (pair_lca sc p ≫= fun n => states sc !! n) = true)));
    by rewrite <- is_orthogonal_spec.
Defined.

#[global] Instance stays_in_branch_dec lca t :
  Decision (stays_in_branch sc lca t).
Proof.
  refine (cast_if (decide (in_branch sc lca t = true)));
    by rewrite <- in_branch_spec.
Defined.

#[global] Instance escapes_dec p : Decision (escapes sc p).
Proof. unfold escapes. apply _. Defined.

#[global] Instance sound_dec p : Decision (sound sc p).
Proof. unfold sound. apply _. Defined.

#[global] Instance fault_dec p k : Decision (fault sc p k).
Proof. destruct k; simpl; apply _. Defined.

Lemma check_pair_sound (p : Transition * Transition) :
  sound sc p → check_pair sc p = Returns tt.
Proof.
  intros [Ho He]. unfold check_pair. fold (pair_lca sc p).
  apply is_orthogonal_spec in Ho as ->. simpl.
  destruct (in_branch sc (pair_lca sc p) p.1) eqn:E1; simpl.
  - destruct (in_branch sc (pair_lca sc p) p.2) eqn:E2; simpl; [done|].
    destruct He. right. rewrite <- in_branch_spec. congruence.
  - destruct He. left. rewrite <- in_branch_spec. congruence.
Qed.

Lemma check_pair_fault (p : Transition * Transition) (k : WarningKind) :
  fault sc p k → check_pair sc p = Raises (Warning k).
Proof.
  unfold check_pair. fold (pair_lca sc p). destruct k; simpl.
  - rewrite <- is_orthogonal_spec. by intros ->%not_true_is_false.
  - intros [Ho He]. apply is_orthogonal_spec in Ho as ->. simpl.
    destruct (in_branch sc (pair_lca sc p) p.1) eqn:E1; simpl; [|done].
    destruct (in_branch sc (pair_lca sc p) p.2) eqn:E2; simpl; [|done].
    apply in_branch_spec in E1, E2. by destruct He.
Qed.

Lemma check_pairs_sound (ps : list (Transition * Transition)) :
  Forall (sound sc) ps → check_pairs sc ps = Returns tt.
Proof.
  induction 1 as [|p ps Hp _ IH]; simpl; [done|].
  by rewrite check_pair_sound.
Qed.

Lemma check_pairs_first_fault (pre post : list (Transition * Transition))
    (p : Transition * Transition) (k : WarningKind) :
  Forall (sound sc) pre → fault sc p k →
  check_pairs sc (pre ++ p :: post) = Raises (Warning k).
Proof.
  induction 1 as [|q pre Hq _ IH]; intros Hp; simpl.
  - by rewrite (check_pair_fault p k).
  - rewrite check_pair_sound by done. by apply IH.
Qed.

(** Every pair is sound or has exactly one of the two faults. *)
Lemma sound_or_fault (p : Transition * Transition) :
  sound sc p ∨ fault sc p NonDeterminist ∨ fault sc p Conflicting.
Proof.
  unfold sound; simpl.
  destruct (decide (lca_orthogonal sc p)); [|by right; left].
  destruct (decide (escapes sc p)); [by right; right|by left].
Qed.

Lemma first_fault (ps : list (Transition * Transition)) :
  Forall (sound sc) ps
  ∨ ∃ pre p post k, ps = pre ++ p :: post
      ∧ Forall (sound sc) pre ∧ fault sc p k.
Proof.
  induction ps as [|p ps IH]; [by left|].
  destruct (decide (sound sc p)) as [Hp|Hp].
  - destruct IH as [IH|(pre & q & post & k & -> & Hpre & Hq)].
    + left. by constructor.
    + right. exists (p :: pre), q, post, k. split_and!; [done| |done].
      by constructor.
  - right.
    destruct (sound_or_fault p) as [?|[?|?]]; [done|..].
    + by exists [], p, ps, NonDeterminist.
    + by exists [], p, ps, Conflicting.
Qed.

End Ordering.

(** ** The order of firing *)

Section Order.
Variable sc : StateChart.

Lemma name_ge_total (a b : Transition) :
  name_ge a b = true ∨ name_ge b a = true.
Proof. apply String.leb_total. Qed.

Lemma name_ge_trans (a b c : Transition) :
  name_ge a b = true → name_ge b c = true → name_ge a c = true.
Proof.
  unfold name_ge. rewrite <- !Is_true_true. intros Hab Hbc.
  exact (transitivity (R := String.le) Hbc Hab).
Qed.

Lemma depth_le_total (a b : Transition) :
  depth_le sc a b = true ∨ depth_le sc b a = true.
Proof. unfold depth_le. rewrite !Nat.leb_le. lia. Qed.

Lemma depth_le_trans (a b c : Transition) :
  depth_le sc a b = true → depth_le sc b c = true → depth_le sc a c = true.
Proof. unfold depth_le. rewrite !Nat.leb_le. lia. Qed.

Lemma arbitrary_order_Permutation (ts : list Transition) :
  arbitrary_order sc ts ≡ₚ ts.
Proof.
  unfold arbitrary_order.
  by rewrite reverse_Permutation, !sorted_Permutation.
Qed.

Lemma arbitrary_order_sorted (ts : list Transition) :
  StronglySorted (fires_before sc) (arbitrary_order sc ts).
Proof.
  unfold arbitrary_order.
  eapply StronglySorted_weaken;
    [|apply StronglySorted_reverse,
        (sorted_refined (depth_le sc) (depth_le_total) (depth_le_trans)
           (fun x y => name_ge x y = true)),
        (sorted_StronglySorted name_ge name_ge_total name_ge_trans)].
  intros a b [Hba Hab]. unfold fires_before, depth_le, name_ge in *.
  rewrite Nat.leb_le in Hba. rewrite Nat.leb_le in Hab.
  destruct (decide (depth_of sc (from_state b) = depth_of sc (from_state a)))
    as [E|NE]; [|left; lia].
  right. split; [done|]. apply Is_true_true, Hab. lia.
Qed.

#[global] Instance fires_before_claimed_dec a b :
  Decision (fires_before_claimed sc a b).
Proof. unfold fires_before_claimed. apply _. Defined.

(** C5, as amended: a set of more than one transition whose pairs all
    pass the checks is returned in the order obtained by sorting by source
    name descending, sorting stably by source depth ascending and
    reversing; this is a rearrangement of the set in which deeper sources
    come first and, among sources of equal depth, the names ascend. *)
Theorem sort_transitions_order (ts : list Transition) :
  1 < length ts →
  Forall (sound sc) (combinations2 ts) →
  ∃ r, _sort_transitions sc ts = Returns r
    ∧ r = reverse (sorted (depth_le sc) (sorted name_ge ts))
    ∧ r ≡ₚ ts
    ∧ StronglySorted (fires_before sc) r.
Proof.
  intros Hlen Hsound. exists (arbitrary_order sc ts). split_and!.
  - unfold _sort_transitions. rewrite bool_decide_eq_true_2 by done.
    by rewrite check_pairs_sound.
  - done.
  - apply arbitrary_order_Permutation.
  - apply arbitrary_order_sorted.
Qed.

End Order.

Lemma sort_transitions_order_witness :
  ∃ r, _sort_transitions Charts.twin [Charts.tb; Charts.ta] = Returns r
    ∧ r = reverse (sorted (depth_le Charts.twin)
                     (sorted name_ge [Charts.tb; Charts.ta]))
    ∧ r ≡ₚ [Charts.tb; Charts.ta]
    ∧ StronglySorted (fires_before Charts.twin) r.
Proof.
  apply (sort_transitions_order Charts.twin [Charts.tb; Charts.ta]).
  - simpl. lia.
  - compute_done.
Defined.

(** The tie-break of C5 as the specification words it, name descending,
    fails: the two loops of [Charts.twin] are selected together, pass the
    checks, and come back with ["a"] before ["b"]. *)
Lemma name_descending_tie_break_fails :
  ¬ (∀ ts, 1 < length ts →
       Forall (sound Charts.twin) (combinations2 ts) →
       ∃ r, _sort_transitions Charts.twin ts = Returns r
         ∧ StronglySorted (fires_before_claimed Charts.twin) r).
Proof.
  intros H.
  destruct (H [Charts.tb; Charts.ta]) as (r & Hr & Hsorted).
  - simpl. lia.
  - compute_done.
  - vm_compute in Hr. injection Hr as <-.
    revert Hsorted. compute_done.
Qed.

Example twin_selected :
  Permutation
    (match _select_transitions Charts.eval Charts.twin
             (Some (mkEvent "e")) (Charts.started Charts.twin []) with
     | Returns ts => ts
     | _ => []
     end)
    [Charts.tb; Charts.ta].
Proof. vm_compute. apply perm_swap || apply Permutation_refl. Qed.

(** ** Applying a micro-step *)

Section Execution.
Context {EvalState : Type}.
Variable evaluate_condition : EvalState -> string -> option Event -> bool.
Variable execute_action :
  EvalState -> string -> option Event -> EvalState * list Event.
Variable sc : StateChart.

Implicit Types st : Interpreter EvalState.

Lemma send_all_internal (emitted : list Event) st :
  foldl (fun st ev => send ev true st) st emitted
  = set_events st (reverse emitted ++ _events st).
Proof.
  revert st. induction emitted as [|ev l IH]; intros st; simpl.
  - by destruct st.
  - rewrite IH. unfold send, set_events; simpl.
    by rewrite reverse_cons, <- app_assoc.
Qed.

Lemma run_and_send_spec (code : string) st :
  run_and_send execute_action code st
  = mkInterpreter (execute_action (_evaluator st) code None).1
      (_memory st) (_configuration st)
      (reverse (execute_action (_evaluator st) code None).2 ++ _events st).
Proof.
  unfold run_and_send.
  destruct (execute_action (_evaluator st) code None) as [e emitted].
  by rewrite send_all_internal.
Qed.

Lemma run_actions_spec (get_action : State → option string)
    (l : list State) st :
  run_actions execute_action get_action l st
  = mkInterpreter
      (action_trace execute_action get_action l (_evaluator st)).1
      (_memory st) (_configuration st)
      (reverse (concat
         (action_trace execute_action get_action l (_evaluator st)).2)
       ++ _events st).
Proof.
  revert st. induction l as [|s l IH]; intros st; simpl.
  - by destruct st.
  - unfold run_actions in *. simpl.
    destruct (get_action s) as [code|]; [|apply IH].
    rewrite IH, run_and_send_spec. simpl.
    by rewrite reverse_app, <- app_assoc.
Qed.

(** Recording the history memory touches the memory only. *)
Lemma record_history_frame name children child st st' o :
  record_history sc name children child st = (st', o) →
  ∃ m, st' = set_memory st m.
Proof.
  destruct child; simpl; try (intros [= <- <-]; exists (_memory st);
    by destruct st).
  case_match; intros [= <- <-]; [by eexists|].
  exists (_memory st). by destruct st.
Qed.

Lemma set_memory_twice st m m' :
  set_memory (set_memory st m) m' = set_memory st m'.
Proof. done. Qed.

Lemma record_children_frame name children todo st st' o :
  record_children sc name children todo st = (st', o) →
  ∃ m, st' = set_memory st m.
Proof.
  revert st. induction todo as [|c todo IH]; intros st; simpl.
  - intros [= <- <-]. exists (_memory st). by destruct st.
  - destruct (states sc !! c) as [child|].
    + unfold bind.
      destruct (record_history sc name children child st) as [st1 o1] eqn:E.
      apply record_history_frame in E as [m ->].
      destruct o1.
      * intros [m' ->]%IH. eauto.
      * intros [= <- <-]. eauto.
      * intros [= <- <-]. eauto.
    + intros [= <- <-]. exists (_memory st). by destruct st.
Qed.

Lemma record_memory_frame exited st st' o :
  record_memory sc exited st = (st', o) →
  ∃ m, st' = set_memory st m.
Proof.
  revert st. induction exited as [|s exited IH]; intros st; simpl.
  - intros [= <- <-]. exists (_memory st). by destruct st.
  - destruct s; try apply IH. unfold bind.
    destruct (record_children sc name children children st)
      as [st1 o1] eqn:E.
    apply record_children_frame in E as [m ->].
    destruct o1.
    + intros [m' ->]%IH. eauto.
    + intros [= <- <-]. eauto.
    + intros [= <- <-]. eauto.
Qed.

Lemma run_transition_action_spec (step : MicroStep) st :
  run_transition_action execute_action step st
  = set_evaluator st (after_transition execute_action step (_evaluator st)).
Proof.
  unfold run_transition_action, after_transition.
  destruct (ms_transition step) as [t|]; simpl; [|by destruct st].
  destruct (truthy (action t)); [done|by destruct st].
Qed.

(** The events that the action of the transition raises are not sent. *)
Lemma run_transition_action_queue (step : MicroStep) st :
  _events (run_transition_action execute_action step st) = _events st.
Proof. by rewrite run_transition_action_spec. Qed.

(** What a micro-step that returns has done, in the order of
    [_execute_step]. *)
Lemma execute_step_returns (step : MicroStep) st st' :
  _execute_step execute_action sc step st = (st', Returns tt) →
  ∃ entered exited m,
    lookup_states sc (entered_states step) = Returns entered
    ∧ lookup_states sc (exited_states step) = Returns exited
    ∧ record_memory sc exited
        (run_actions execute_action state_on_exit exited st)
      = (set_memory (run_actions execute_action state_on_exit exited st) m,
         Returns tt)
    ∧ st' =
        let st1 :=
          set_memory (run_actions execute_action state_on_exit exited st) m in
        let st2 :=
          set_configuration st1
            (_configuration st1 ∖ list_to_set (exited_states step)) in
        let st3 := run_transition_action execute_action step st2 in
        let st4 := run_actions execute_action state_on_entry entered st3 in
        set_configuration st4
          (_configuration st4 ∪ list_to_set (entered_states step)).
Proof.
  unfold _execute_step, bind, lift, modify.
  destruct (lookup_states sc (entered_states step)) as [entered| |];
    [|done..].
  destruct (lookup_states sc (exited_states step)) as [exited| |];
    [|done..].
  destruct (record_memory sc exited _) as [st1 o1] eqn:E.
  destruct (record_memory_frame _ _ _ _ E) as [m ->].
  destruct o1 as [[]| |]; [|done..].
  intros [= <-]. by exists entered, exited, m.
Qed.

(** C4, as amended: when a micro-step has been applied, the events raised
    by its exit and entry actions are in the queue ahead of every event
    that was queued before, one block for each action that ran, and every
    block is in the reverse of the order in which its action raised the
    events. *)
Theorem execute_step_queue (step : MicroStep) st st' :
  _execute_step execute_action sc step st = (st', Returns tt) →
  _events st'
  = reverse (concat (emissions execute_action sc step st)) ++ _events st
  ∧ ∀ earlier emitted later,
      emissions execute_action sc step st = earlier ++ emitted :: later →
      _events st'
      = reverse (concat later) ++ reverse emitted
        ++ reverse (concat earlier) ++ _events st.
Proof.
  intros H.
  assert (Hq : _events st'
    = reverse (concat (emissions execute_action sc step st)) ++ _events st).
  { apply execute_step_returns in H
      as (entered & exited & m & Hen & Hex & _ & ->).
    unfold emissions. rewrite Hen, Hex. cbv zeta.
    rewrite run_transition_action_spec, !run_actions_spec. simpl.
    by rewrite concat_app, reverse_app, <- app_assoc. }
  split; [done|]. intros earlier emitted later E. rewrite Hq, E.
  rewrite concat_app, concat_cons, !reverse_app.
  by rewrite <- !app_assoc.
Qed.

(** *** The history memory *)

Lemma record_children_no_history name children todo st :
  (∀ c h i d, c ∈ todo → states sc !! c ≠ Some (HistoryState h i d)) →
  ∃ o, record_children sc name children todo st = (st, o).
Proof.
  induction todo as [|c todo IH]; intros Hno; simpl; [by eexists|].
  destruct (states sc !! c) as [child|] eqn:E; [|by eexists].
  unfold bind.
  assert (record_history sc name children child st = (st, Returns tt)) as ->.
  { destruct child; try done. by destruct (Hno c name0 initial deep);
      [left|]. }
  apply IH. intros c' h i d Hc'. apply Hno. by right.
Qed.

Lemma record_memory_no_history exited st :
  Forall (fun s => ¬ owns_history sc s) exited →
  ∃ o, record_memory sc exited st = (st, o).
Proof.
  induction 1 as [|s exited Hs _ IH]; simpl; [by eexists|].
  destruct s; try done. unfold bind.
  destruct (record_children_no_history name children children st)
    as [o ->].
  { intros c h i d Hc E. apply Hs. simpl. by exists c, h, i, d. }
  destruct o; [done|by eexists..].
Qed.

Lemma lookup_states_Forall (P : State → Prop) names l :
  (∀ n s, n ∈ names → states sc !! n = Some s → P s) →
  lookup_states sc names = Returns l → Forall P l.
Proof.
  revert l. induction names as [|n names IH]; intros l HP; simpl.
  - by intros [= <-].
  - destruct (states sc !! n) as [s|] eqn:E; [|done].
    destruct (lookup_states sc names) as [l'| |]; simpl; [|done..].
    intros [= <-]. constructor.
    + apply (HP n); [by left|done].
    + apply IH; [|done]. intros n' s' Hn'. apply HP. by right.
Qed.

Lemma execute_step_memory (step : MicroStep) st st' o :
  (∀ n s, n ∈ exited_states step → states sc !! n = Some s →
          ¬ owns_history sc s) →
  _execute_step execute_action sc step st = (st', o) →
  _memory st' = _memory st.
Proof.
  intros Hno. unfold _execute_step, bind, lift, modify.
  destruct (lookup_states sc (entered_states step)) as [entered| |];
    [|by intros [= <- <-]..].
  destruct (lookup_states sc (exited_states step)) as [exited| |] eqn:Hex;
    [|by intros [= <- <-]..].
  apply (lookup_states_Forall _ _ _ Hno) in Hex.
  destruct (record_memory_no_history exited
              (run_actions execute_action state_on_exit exited st) Hex)
    as [o1 ->].
  destruct o1.
  - intros [= <- <-]. rewrite run_transition_action_spec, !run_actions_spec.
    done.
  - intros [= <- <-]. by rewrite run_actions_spec.
  - intros [= <- <-]. by rewrite run_actions_spec.
Qed.

Lemma name_depth_le_total (a b : string) :
  name_depth_le sc a b = true ∨ name_depth_le sc b a = true.
Proof. unfold name_depth_le. rewrite !Nat.leb_le. lia. Qed.

(** What the computation of a stabilization step does to the interpreter:
    nothing, or the in-place sort of one stored list. *)
Lemma stabilization_scan_effect leaves st st' o :
  stabilization_scan sc leaves st = (st', o) →
  st' = st
  ∨ ∃ h l, _memory st !! h = Some l
      ∧ st' = set_memory st (<[h := sorted (name_depth_le sc) l]> (_memory st)).
Proof.
  induction leaves as [|leaf leaves IH]; simpl.
  - intros [= <- <-]. by left.
  - destruct (states sc !! leaf) as [[]|]; try done;
      try (intros [= <- <-]; by left).
    + destruct (truthy initial); [|done]. intros [= <- <-]. by left.
    + unfold bind, history_step.
      destruct (_memory st !! name) as [l|] eqn:E; intros [= <- <-].
      * right. by exists name, l.
      * by left.
Qed.

Lemma compute_stabilization_step_memory st st' o :
  _compute_stabilization_step sc st = (st', o) →
  dom (_memory st') = dom (_memory st)
  ∧ ∀ h l, _memory st !! h = Some l →
      ∃ l', _memory st' !! h = Some l' ∧ l' ≡ₚ l
        ∧ (l' = l ∨ l' = sorted (name_depth_le sc) l).
Proof.
  unfold _compute_stabilization_step.
  intros [->|(h & l & Hh & ->)]%stabilization_scan_effect.
  - split; [done|]. intros h l Hl. exists l. by split_and!; [| |left].
  - simpl. split.
    + rewrite dom_insert_L. apply elem_of_dom_2 in Hh.
      apply set_eq. intros k. rewrite elem_of_union, elem_of_singleton.
      split; [by intros [->|?]|by right].
    + intros h' l' Hl'. destruct (decide (h = h')) as [<-|Hne].
      * rewrite lookup_insert_eq. eexists. split; [done|].
        assert (l' = l) as -> by congruence.
        split; [apply sorted_Permutation|by right].
      * rewrite lookup_insert_ne by done. exists l'. by split_and!; [| |left].
Qed.

(** The micro-steps of the stabilizer exit no compound state. *)
Lemma stabilization_step_exits leaves st st' step :
  (∀ k s, states sc !! k = Some s → state_name s = k) →
  stabilization_scan sc leaves st = (st', Returns (Some step)) →
  ∀ n s, n ∈ exited_states step → states sc !! n = Some s →
         ¬ owns_history sc s.
Proof.
  intros Hnames. induction leaves as [|leaf leaves IH]; simpl; [done|].
  destruct (states sc !! leaf) as [state|] eqn:E; [|done].
  destruct state; try exact IH.
  - destruct (truthy initial); [|exact IH].
    intros [= <- <-] n s' Hn. by apply elem_of_nil in Hn.
  - intros [= <- <-] n s' Hn. by apply elem_of_nil in Hn.
  - unfold bind, history_step. intros [= <- <-] n s'.
    simpl. intros ->%list_elem_of_singleton.
    pose proof (Hnames _ _ E) as En. simpl in En. subst leaf.
    rewrite E. by intros [= <-] [].
Qed.

(** The computation of a stabilization step writes the interpreter in one
    place at most: the list stored for the history state of the step. *)
Lemma stabilization_scan_exact leaves st st' o :
  stabilization_scan sc leaves st = (st', o) →
  st' = set_memory st (sorted_in_place sc (_memory st) o)
  ∧ ∀ step h l, o = Returns (Some step) → exited_states step = [h] →
      _memory st !! h = Some l →
      entered_states step = sorted (name_depth_le sc) l.
Proof.
  assert (Hsame : st = set_memory st (_memory st)) by by destruct st.
  induction leaves as [|leaf leaves IH]; simpl.
  - intros [= <- <-]. split; [done|]. by intros step h l [=].
  - destruct (states sc !! leaf) as [state|];
      [|intros [= <- <-]; split; [done|]; by intros step h l [=]].
    destruct state; try exact IH.
    + destruct (truthy initial); [|exact IH].
      intros [= <- <-]. split; [done|]. by intros step h l [= <-] [=].
    + intros [= <- <-]. split; [done|]. by intros step h l [= <-] [=].
    + unfold bind, history_step. intros [= <- <-]. simpl. split.
      * by destruct (_memory st !! name).
      * intros step h l [= <-] [= <-] Hl. simpl. by rewrite Hl.
Qed.

(** C9, as amended: sending an event changes no memory entry; applying a
    micro-step that exits no compound state with a history child changes no
    memory entry, whatever the outcome; computing a stabilization step
    changes nothing but the memory, and the memory in one place at most:
    when the step is the step of a history state that has a stored list,
    that list has been sorted in place by ascending depth (and is the list
    of the states that the step enters), so that its elements stay and
    their order can change, and no other entry is touched; no key is added
    or removed; applying a stabilization step changes no memory entry. *)
Theorem memory_frame :
  (∀ ev internal st, _memory (send ev internal st) = _memory st)
  ∧ (∀ step st st' o,
       (∀ n s, n ∈ exited_states step → states sc !! n = Some s →
               ¬ owns_history sc s) →
       _execute_step execute_action sc step st = (st', o) →
       _memory st' = _memory st)
  ∧ (∀ st st' o,
       _compute_stabilization_step sc st = (st', o) →
       st' = set_memory st (sorted_in_place sc (_memory st) o)
       ∧ (∀ step h l, o = Returns (Some step) → exited_states step = [h] →
            _memory st !! h = Some l →
            entered_states step = sorted (name_depth_le sc) l
            ∧ _memory st' = <[h := sorted (name_depth_le sc) l]> (_memory st))
       ∧ dom (_memory st') = dom (_memory st)
       ∧ ∀ h l, _memory st !! h = Some l →
           ∃ l', _memory st' !! h = Some l' ∧ l' ≡ₚ l
             ∧ (l' = l ∨ l' = sorted (name_depth_le sc) l))
  ∧ (∀ st st1 step st2 o,
       (∀ k s, states sc !! k = Some s → state_name s = k) →
       _compute_stabilization_step sc st = (st1, Returns (Some step)) →
       _execute_step execute_action sc step st1 = (st2, o) →
       _memory st2 = _memory st1).
Proof.
  split_and!.
  - intros ev [] st; done.
  - apply execute_step_memory.
  - intros st st' o H.
    destruct (stabilization_scan_exact _ _ _ _ H) as [Hexact Hentered].
    destruct (compute_stabilization_step_memory _ _ _ H) as [Hdom Hperm].
    split_and!; [done| |done..].
    intros step h l -> Hh Hl. split; [by apply (Hentered step h l)|].
    rewrite Hexact. simpl. by rewrite Hh, Hl.
  - intros st st1 step st2 o Hnames Hstep.
    apply execute_step_memory.
    by apply (stabilization_step_exits _ _ _ _ Hnames Hstep).
Qed.

(** *** The stabilizer on a stable configuration *)

Lemma stabilization_scan_stable leaves st :
  (∀ leaf, leaf ∈ leaves →
     ∃ s, states sc !! leaf = Some s ∧ stable_leaf s) →
  stabilization_scan sc leaves st = (st, Returns None).
Proof.
  induction leaves as [|leaf leaves IH]; intros Hstable; simpl; [done|].
  destruct (Hstable leaf) as (s & -> & Hs); [by left|].
  assert (Hrest : stabilization_scan sc leaves st = (st, Returns None)).
  { apply IH. intros l Hl. apply Hstable. by right. }
  destruct s; simpl in Hs; try done. by subst initial.
Qed.

(** C8: when every leaf of the configuration is a basic state, a final
    state or a compound state with no initial child, no stabilization step
    is computed, and the stabilizer returns the empty list of micro-steps
    and leaves the interpreter (configuration, memory, queue and
    evaluator) as it was. *)
Theorem stabilize_stable (fuel : nat) st :
  (∀ leaf, leaf ∈ leaf_for sc (elements (_configuration st)) →
     ∃ s, states sc !! leaf = Some s ∧ stable_leaf s) →
  _compute_stabilization_step sc st = (st, Returns None)
  ∧ _stabilize execute_action sc (S fuel) st = (st, Returns []).
Proof.
  intros Hstable.
  assert (H : _compute_stabilization_step sc st = (st, Returns None))
    by by apply stabilization_scan_stable.
  split; [done|]. simpl. unfold bind. by rewrite H.
Qed.

(** *** [execute_once] *)

Lemma scan_transitions_queue st ev ts acc q :
  scan_transitions evaluate_condition (set_events st q) ev ts acc
  = scan_transitions evaluate_condition st ev ts acc.
Proof. done. Qed.

Lemma select_from_queue st ev acc path q :
  select_from evaluate_condition sc (set_events st q) ev acc path
  = select_from evaluate_condition sc st ev acc path.
Proof.
  revert acc. induction path as [|s path IH]; intros acc; simpl; [done|].
  destruct (states sc !! s); [|done]. rewrite scan_transitions_queue.
  destruct (scan_transitions _ _ _ _ _) as [[] acc']; [done|apply IH].
Qed.

Lemma select_leaves_queue st ev leaves acc q :
  select_leaves evaluate_condition sc (set_events st q) ev leaves acc
  = select_leaves evaluate_condition sc st ev leaves acc.
Proof.
  revert acc. induction leaves as [|leaf leaves IH]; intros acc; [done|].
  cbn [select_leaves]. rewrite select_from_queue.
  destruct (select_from _ _ _ _ _ _); simpl; [apply IH|done..].
Qed.

(** The selection does not read the queue. *)
Lemma select_transitions_queue st ev q :
  _select_transitions evaluate_condition sc ev (set_events st q)
  = _select_transitions evaluate_condition sc ev st.
Proof. apply select_leaves_queue. Qed.

(** C7: when no eventless transition is enabled, the queue starts with
    [ev] and no transition is enabled for [ev], [execute_once] raises
    nothing and returns a macro-step of one micro-step, which carries
    [ev], no transition and empty lists of entered and exited states; the
    event has left the queue and nothing else has changed. *)
Theorem execute_once_unmatched (fuel : nat) st (ev : Event)
    (queue : list Event) :
  _select_eventless_transitions evaluate_condition sc st = Returns [] →
  _events st = ev :: queue →
  _select_transitions evaluate_condition sc (Some ev) st = Returns [] →
  execute_once evaluate_condition execute_action sc fuel st
  = (set_events st queue,
     Returns (Some (mkMacroStep [mkMicroStep (Some ev) None [] []]))).
Proof.
  intros Hnone Hq Hev. unfold execute_once, bind, lift.
  rewrite Hnone, Hq. by rewrite select_transitions_queue, Hev.
Qed.

(** *** Failures of the ordering *)

Lemma fault_not_sound (p : Transition * Transition) (k : WarningKind) :
  fault sc p k → ¬ sound sc p.
Proof. destruct k; simpl; unfold sound; tauto. Qed.

Lemma sort_transitions_first_fault (ts : list Transition) pre p post k :
  1 < length ts →
  combinations2 ts = pre ++ p :: post →
  Forall (sound sc) pre → fault sc p k →
  _sort_transitions sc ts = Raises (Warning k).
Proof.
  intros Hlen E Hpre Hp. unfold _sort_transitions.
  rewrite bool_decide_eq_true_2 by done.
  by rewrite E, (check_pairs_first_fault sc pre post p k).
Qed.

Lemma sort_transitions_raises_iff (ts : list Transition) :
  1 < length ts →
  (∃ e, _sort_transitions sc ts = Raises e)
  ↔ ∃ p, p ∈ combinations2 ts ∧ ¬ sound sc p.
Proof.
  intros Hlen.
  destruct (first_fault sc (combinations2 ts))
    as [Hs|(pre & p & post & k & E & Hpre & Hp)].
  - split.
    + intros [e He]. unfold _sort_transitions in He.
      rewrite bool_decide_eq_true_2 in He by done.
      by rewrite check_pairs_sound in He.
    + intros (p & Hin & Hp). rewrite Forall_forall in Hs.
      destruct Hp. by apply Hs.
  - split.
    + intros _. exists p. split; [|by eapply fault_not_sound].
      rewrite E. apply elem_of_app. right. by left.
    + intros _. eexists. by eapply sort_transitions_first_fault.
Qed.

Lemma fire_raises fuel ev ts st e :
  _sort_transitions sc ts = Raises e →
  fire execute_action sc fuel ev ts st = (st, Raises e).
Proof. intros H. unfold fire, bind, lift. by rewrite H. Qed.

(** C2, as amended: for two or more selected transitions the pairs are
    examined in the order of [combinations]; the ordering fails exactly
    when a pair is not sound, and the first such pair decides the error:
    non-determinism when its least common ancestor is not an orthogonal
    state, a conflict when it is and a target leaves its branch. The
    ordering changes nothing, and when [execute_once] fails this way no
    micro-step has been applied: configuration, memory and evaluator are
    as before the call, and so is the queue, except that the event for
    which the transitions were selected has been taken from it. *)
Theorem ordering_failure (ts : list Transition) :
  1 < length ts →
  (∀ pre p post k,
     combinations2 ts = pre ++ p :: post →
     Forall (sound sc) pre → fault sc p k →
     _sort_transitions sc ts = Raises (Warning k))
  ∧ ((∃ e, _sort_transitions sc ts = Raises e)
     ↔ ∃ p, p ∈ combinations2 ts ∧ ¬ sound sc p)
  ∧ (∀ e fuel st,
       _sort_transitions sc ts = Raises e →
       (∀ ev, fire execute_action sc fuel ev ts st = (st, Raises e))
       ∧ (_select_eventless_transitions evaluate_condition sc st
            = Returns ts →
          execute_once evaluate_condition execute_action sc fuel st
            = (st, Raises e))
       ∧ (∀ ev queue,
            _select_eventless_transitions evaluate_condition sc st
              = Returns [] →
            _events st = ev :: queue →
            _select_transitions evaluate_condition sc (Some ev) st
              = Returns ts →
            execute_once evaluate_condition execute_action sc fuel st
              = (set_events st queue, Raises e))).
Proof.
  intros Hlen. split_and!.
  - intros pre p post k. by apply sort_transitions_first_fault.
  - by apply sort_transitions_raises_iff.
  - intros e fuel st He. split_and!.
    + intros ev. by apply fire_raises.
    + intros Hsel. unfold execute_once, bind, lift. rewrite Hsel.
      destruct ts as [|t ts']; [simpl in Hlen; lia|].
      by apply fire_raises.
    + intros ev queue Hnone Hq Hsel. unfold execute_once, bind, lift.
      rewrite Hnone, Hq, select_transitions_queue, Hsel.
      destruct ts as [|t ts']; [simpl in Hlen; lia|].
      by apply fire_raises.
Qed.

End Execution.

(** ** The lists of a transition's micro-step *)

Lemma StronglySorted_filter {A} (R : relation A) (P : A → Prop)
    `{∀ x, Decision (P x)} (l : list A) :
  StronglySorted R l → StronglySorted R (filter P l).
Proof.
  induction 1 as [|x l Hl IH Hx]; [constructor|].
  rewrite filter_cons. destruct (decide (P x)); [|done].
  constructor; [done|]. rewrite Forall_forall in Hx |- *.
  intros y [_ Hy]%list_elem_of_filter. by apply Hx.
Qed.

Section Steps.
Variable sc : StateChart.

Lemma exited_for_elem (config : gset string) (b s : string) :
  s ∈ exited_for sc config b
  ↔ s ∈ config ∧ (s = b ∨ s ∈ descendants_for sc b).
Proof.
  unfold exited_for.
  rewrite elem_of_app, list_elem_of_filter, elem_of_reverse.
  case_bool_decide as Hb.
  - rewrite list_elem_of_singleton.
    split; [intros [[? ?]| ->]|intros [? [->|?]]]; auto.
  - rewrite elem_of_nil.
    split; [intros [[? ?]|[]]|intros [? [->|?]]]; auto.
Qed.

Lemma exited_for_NoDup (config : gset string) (b : string) :
  NoDup (descendants_for sc b) → b ∉ descendants_for sc b →
  NoDup (exited_for sc config b).
Proof.
  intros Hnd Hb. unfold exited_for. apply NoDup_app. split_and!.
  - apply NoDup_filter. by rewrite reverse_Permutation.
  - intros s [_ Hs]%list_elem_of_filter. rewrite elem_of_reverse in Hs.
    case_bool_decide; [|apply not_elem_of_nil].
    by intros ->%list_elem_of_singleton.
  - case_bool_decide; [apply NoDup_singleton|apply NoDup_nil_2].
Qed.

Lemma exited_for_deeper_first (config : gset string) (b : string) :
  StronglySorted (flip (deeper_first sc)) (descendants_for sc b) →
  Forall (fun d => deeper_first sc d b) (descendants_for sc b) →
  StronglySorted (deeper_first sc) (exited_for sc config b).
Proof.
  intros Hsorted Hb. unfold exited_for. apply StronglySorted_app. split_and!.
  - intros d s [_ Hd]%list_elem_of_filter Hs.
    rewrite elem_of_reverse in Hd.
    case_bool_decide; [|by apply elem_of_nil in Hs].
    apply list_elem_of_singleton in Hs as ->.
    rewrite Forall_forall in Hb. by apply Hb.
  - apply StronglySorted_filter.
    by apply StronglySorted_reverse in Hsorted.
  - case_bool_decide; repeat constructor.
Qed.

Lemma entered_shallower_first (lca : option string) (target : string) :
  StronglySorted (flip (shallower_first sc))
    (target :: ancestors_for sc target) →
  StronglySorted (shallower_first sc)
    (reverse (below lca (ancestors_for sc target)) ++ [target]).
Proof.
  intros Hsorted. rewrite <- reverse_cons.
  apply (StronglySorted_reverse (flip (shallower_first sc))).
  destruct (below_sublist lca (ancestors_for sc target)) as [k Hk].
  rewrite Hk in Hsorted.
  change (StronglySorted (flip (shallower_first sc))
            ((target :: below lca (ancestors_for sc target)) ++ k))
    in Hsorted.
  by apply StronglySorted_app in Hsorted as (_ & ? & _).
Qed.

(** The micro-step of one transition with a target, in the
    configuration [config]. *)
Lemma transition_step_lists (config : gset string) (ev : option Event)
    (t : Transition) (target : string) :
  to_state t = Some target →
  let lca := least_common_ancestor sc (from_state t) target in
  let b := branch_of sc lca (from_state t) in
  let step := compute_transition_step sc config ev t in
  ms_event step = ev
  ∧ ms_transition step = Some t
  ∧ (∀ s, s ∈ exited_states step
          ↔ s ∈ config ∧ (s = b ∨ s ∈ descendants_for sc b))
  ∧ exited_states step
    = filter (fun d => d ∈ config) (reverse (descendants_for sc b))
      ++ (if bool_decide (b ∈ config) then [b] else [])
  ∧ (NoDup (descendants_for sc b) → b ∉ descendants_for sc b →
     NoDup (exited_states step))
  ∧ (StronglySorted (flip (deeper_first sc)) (descendants_for sc b) →
     Forall (fun d => deeper_first sc d b) (descendants_for sc b) →
     StronglySorted (deeper_first sc) (exited_states step))
  ∧ entered_states step
    = reverse (below lca (ancestors_for sc target)) ++ [target]
  ∧ (StronglySorted (flip (shallower_first sc))
       (target :: ancestors_for sc target) →
     StronglySorted (shallower_first sc) (entered_states step)).
Proof.
  intros Htarget lca b step. subst step.
  unfold compute_transition_step. rewrite Htarget. fold lca.
  rewrite last_before_below. fold (branch_of sc lca (from_state t)).
  fold b. simpl. rewrite enter_until_below. split_and!; try done.
  - apply exited_for_elem.
  - apply exited_for_NoDup.
  - apply exited_for_deeper_first.
  - apply entered_shallower_first.
Qed.

End Steps.

Section TransitionSteps.
Context {EvalState : Type}.
Variable sc : StateChart.

(** C6, as amended: [_compute_transitions_steps] returns one micro-step
    for each transition, in the order of the transitions. For a transition
    with a target, with [lca] the least common ancestor of source and
    target and [b] the last of the source and its ancestors strictly below
    [lca], the micro-step carries the event and the transition; its exited
    list holds exactly the active states among [b] and its descendants,
    in the reverse of the order in which the hierarchy lists the
    descendants of [b], and [b] last; its entered list is the ancestors of
    the target strictly below [lca], from the one nearest to [lca] down,
    followed by the target. The exited list is deepest first when the
    hierarchy lists the descendants by non-decreasing depth, none of them
    shallower than [b]; it has no repetition when the list of the
    descendants has none. The entered list is shallowest first when depth
    decreases along the root-ward list of the ancestors of the target. *)
Theorem compute_transitions_steps_lists (ev : option Event)
    (ts : list Transition) (st : Interpreter EvalState) :
  length (_compute_transitions_steps sc ev ts st) = length ts
  ∧ ∀ i t target,
      ts !! i = Some t → to_state t = Some target →
      let config := _configuration st in
      let lca := least_common_ancestor sc (from_state t) target in
      let b := branch_of sc lca (from_state t) in
      ∃ step,
        _compute_transitions_steps sc ev ts st !! i = Some step
        ∧ ms_event step = ev
        ∧ ms_transition step = Some t
        ∧ (∀ s, s ∈ exited_states step
                ↔ s ∈ config ∧ (s = b ∨ s ∈ descendants_for sc b))
        ∧ exited_states step
          = filter (fun d => d ∈ config) (reverse (descendants_for sc b))
            ++ (if bool_decide (b ∈ config) then [b] else [])
        ∧ (NoDup (descendants_for sc b) → b ∉ descendants_for sc b →
           NoDup (exited_states step))
        ∧ (StronglySorted (flip (deeper_first sc)) (descendants_for sc b) →
           Forall (fun d => deeper_first sc d b) (descendants_for sc b) →
           StronglySorted (deeper_first sc) (exited_states step))
        ∧ entered_states step
          = reverse (below lca (ancestors_for sc target)) ++ [target]
        ∧ (StronglySorted (flip (shallower_first sc))
             (target :: ancestors_for sc target) →
           StronglySorted (shallower_first sc) (entered_states step)).
Proof.
  unfold _compute_transitions_steps. split; [apply length_map|].
  intros i t target Hi Htarget. cbv zeta.
  exists (compute_transition_step sc (_configuration st) ev t). split.
  - change (map ?f ?l) with (f <$> l). by rewrite list_lookup_fmap, Hi.
  - by apply (transition_step_lists sc (_configuration st) ev t target).
Qed.

End TransitionSteps.

(** ** The properties on the example statecharts *)

Lemma compute_transitions_steps_lists_witness :
  let sc := Charts.wrapped in
  let st := Charts.started sc [] in
  ∃ step,
    _compute_transitions_steps sc None
      [Charts.on "e" "x" "y"; Charts.on "e" "A" "y"] st !! 1 = Some step
    ∧ exited_states step = ["z"; "x"; "R2"; "R1"; "P"; "A"]
    ∧ StronglySorted (deeper_first sc) (exited_states step)
    ∧ entered_states step = ["A"; "P"; "R1"; "y"]
    ∧ StronglySorted (shallower_first sc) (entered_states step).
Proof.
  cbv zeta.
  destruct (compute_transitions_steps_lists Charts.wrapped None
              [Charts.on "e" "x" "y"; Charts.on "e" "A" "y"]
              (Charts.started Charts.wrapped [])) as [_ Hsteps].
  destruct (Hsteps 1 (Charts.on "e" "A" "y") "y" eq_refl eq_refl)
    as (step & Hstep & _ & _ & _ & Hexited & _ & Hdeep & Hentered & Hshallow).
  exists step. split_and!.
  - exact Hstep.
  - rewrite Hexited. vm_compute. reflexivity.
  - apply Hdeep; unfold flip, deeper_first; compute_done.
  - rewrite Hentered. vm_compute. reflexivity.
  - apply Hshallow; unfold flip, shallower_first; compute_done.
Defined.

(** The order of C6 as the specification words it fails for a hierarchy
    that lists the descendants depth first: with both regions of [S]
    active, the transition that leaves [S] from [B] exits [B] before [A1],
    which is deeper. *)
Lemma exited_not_deepest_first :
  ¬ (∀ ev ts (st : Interpreter Recorder.state) i t target step,
       ts !! i = Some t → to_state t = Some target →
       _compute_transitions_steps Preorder.crossing ev ts st !! i
       = Some step →
       StronglySorted (deeper_first Preorder.crossing)
         (exited_states step)).
Proof.
  intros H.
  assert (Hstep :
    _compute_transitions_steps Preorder.crossing None [Preorder.leaving]
      (Charts.started Preorder.crossing []) !! 0
    = Some (mkMicroStep None (Some Preorder.leaving) ["out"]
              ["B"; "A1"; "A"; "S"]))
    by (vm_compute; reflexivity).
  specialize (H None [Preorder.leaving]
                (Charts.started Preorder.crossing []) 0 Preorder.leaving
                "out" _ eq_refl eq_refl Hstep).
  revert H. unfold deeper_first. compute_done.
Qed.

Example crossing_exited :
  let st := Charts.started Preorder.crossing [] in
  elements (_configuration st) = ["S"; "A1"; "A"; "B"]
  ∧ descendants_for Preorder.crossing "S" = ["A"; "A1"; "B"]
  ∧ map exited_states
      (_compute_transitions_steps Preorder.crossing None
         [Preorder.leaving] st)
    = [["B"; "A1"; "A"; "S"]]
  ∧ map (depth_of Preorder.crossing) ["B"; "A1"; "A"; "S"] = [2; 3; 2; 1].
Proof. cbv zeta. split_and!; vm_compute; reflexivity. Qed.

Lemma execute_once_unmatched_witness :
  let st := Charts.started (Charts.nested false) ["X"] in
  execute_once Charts.eval Charts.exec (Charts.nested false) 10 st
  = (set_events st [],
     Returns (Some (mkMacroStep
                      [mkMicroStep (Some (mkEvent "X")) None [] []]))).
Proof.
  cbv zeta.
  apply (execute_once_unmatched Charts.eval Charts.exec
           (Charts.nested false) 10
           (Charts.started (Charts.nested false) ["X"]) (mkEvent "X") []).
  - vm_compute. reflexivity.
  - vm_compute. reflexivity.
  - vm_compute. reflexivity.
Defined.

Lemma stabilize_stable_witness :
  let st := Charts.started (Charts.nested false) [] in
  _compute_stabilization_step (Charts.nested false) st = (st, Returns None)
  ∧ _stabilize Charts.exec (Charts.nested false) 1 st = (st, Returns []).
Proof.
  cbv zeta.
  apply (stabilize_stable Charts.exec (Charts.nested false) 0
           (Charts.started (Charts.nested false) [])).
  intros leaf Hleaf. vm_compute in Hleaf.
  repeat (apply elem_of_cons in Hleaf as [->|Hleaf];
          [eexists; split; [vm_compute; reflexivity|exact I]|]).
  by apply elem_of_nil in Hleaf.
Defined.

Lemma execute_step_queue_witness :
  let st := Charts.started Charts.acting ["q"] in
  let st' := fst (_execute_step Charts.exec Charts.acting Charts.go_step st) in
  _events st
  = [mkEvent "q"]
  ∧ emissions Charts.exec Charts.acting Charts.go_step st
    = [[mkEvent "x"; mkEvent "y"]; [mkEvent "n"]]
  ∧ _events st' = [mkEvent "n"; mkEvent "y"; mkEvent "x"; mkEvent "q"].
Proof.
  cbv zeta.
  destruct (execute_step_queue Charts.exec Charts.acting Charts.go_step
              (Charts.started Charts.acting ["q"])
              (fst (_execute_step Charts.exec Charts.acting Charts.go_step
                      (Charts.started Charts.acting ["q"]))))
    as [Hqueue _].
  - vm_compute. reflexivity.
  - split_and!.
    + vm_compute. reflexivity.
    + vm_compute. reflexivity.
    + rewrite Hqueue. vm_compute. reflexivity.
Defined.

(** The order of C4 as the specification words it fails: the exit action
    of [s] raises [x] and then [y], and in the queue [y] is ahead of
    [x]. *)
Lemma emission_order_not_kept :
  ¬ (∀ step st st' emitted i j a b,
       _execute_step Charts.exec Charts.acting step st = (st', Returns tt) →
       emitted ∈ emissions Charts.exec Charts.acting step st →
       i < j → emitted !! i = Some a → emitted !! j = Some b →
       ahead_of a b (_events st')).
Proof.
  intros H.
  set (st := Charts.started Charts.acting ["q"]).
  set (st' := fst (_execute_step Charts.exec Charts.acting Charts.go_step st)).
  assert (Hrun : _execute_step Charts.exec Charts.acting Charts.go_step st
                 = (st', Returns tt)) by (vm_compute; reflexivity).
  assert (Hin : [mkEvent "x"; mkEvent "y"]
                ∈ emissions Charts.exec Charts.acting Charts.go_step st)
    by compute_done.
  destruct (H _ _ _ _ 0 1 (mkEvent "x") (mkEvent "y") Hrun Hin)
    as (i & j & Hij & Hi & Hj); [lia|done|done|].
  vm_compute in Hi, Hj.
  destruct i as [|[|[|[|i]]]]; try discriminate Hi.
  destruct j as [|[|[|[|j]]]]; try discriminate Hj. lia.
Qed.

(** C3: the action of the transition [Charts.go] runs after the exit
    action of [s] and before the entry action of [t], with the event [go]
    as its context, and it raises the event [a]; but the events that the
    exit and entry actions raised are in the queue, and [a] is not: the
    result of [execute_action] is not used for the transition. *)
Theorem transition_action_events_not_queued :
  let st := Charts.started Charts.acting ["q"] in
  let r := _execute_step Charts.exec Charts.acting Charts.go_step st in
  snd r = Returns tt
  ∧ _evaluator (fst r)
    = [("xy", None); ("a", Some (mkEvent "go")); ("n", None)]
  ∧ snd (Charts.exec [("xy", None)] "a" (Some (mkEvent "go")))
    = [mkEvent "a"]
  ∧ _events (fst r)
    = [mkEvent "n"; mkEvent "y"; mkEvent "x"; mkEvent "q"]
  ∧ mkEvent "a" ∉ _events (fst r).
Proof.
  cbv zeta. split_and!; try (vm_compute; reflexivity). compute_done.
Qed.

Lemma ordering_failure_witness :
  let sc := Charts.rival false in
  let st := Charts.started sc ["e"; "f"] in
  _sort_transitions sc [Charts.t1; Charts.t2; Charts.t3]
  = Raises (Warning Conflicting)
  ∧ execute_once Charts.eval Charts.exec sc 10 st
    = (set_events st [mkEvent "f"], Raises (Warning Conflicting)).
Proof.
  cbv zeta.
  destruct (ordering_failure Charts.eval Charts.exec (Charts.rival false)
              [Charts.t1; Charts.t2; Charts.t3]) as (Hfirst & _ & Hstate).
  { simpl. lia. }
  assert (Hraise :
    _sort_transitions (Charts.rival false) [Charts.t1; Charts.t2; Charts.t3]
    = Raises (Warning Conflicting)).
  { apply (Hfirst [] (Charts.t1, Charts.t2)
             [(Charts.t1, Charts.t3); (Charts.t2, Charts.t3)] Conflicting).
    - reflexivity.
    - constructor.
    - compute_done. }
  split; [exact Hraise|].
  destruct (Hstate (Warning Conflicting) 10
              (Charts.started (Charts.rival false) ["e"; "f"]) Hraise)
    as (_ & _ & Hqueued).
  apply (Hqueued (mkEvent "e") [mkEvent "f"]).
  - vm_compute. reflexivity.
  - vm_compute. reflexivity.
  - vm_compute. reflexivity.
Defined.

(** The errors of C2 as the specification words them cannot both be
    raised: the three transitions of [Charts.rival] are selected together,
    the pair of [s2] has a compound least common ancestor and the target
    of [s1] leaves its region. This is so for both readings of the least
    common ancestor. *)
Lemma error_kind_not_by_any_pair :
  ¬ error_by_any_pair (Charts.rival false)
  ∧ ¬ error_by_any_pair (Charts.rival true).
Proof.
  split; intros H.
  all: destruct (H [Charts.t1; Charts.t2; Charts.t3]) as [Hn Hc];
    [simpl; lia|].
  all: rewrite Hc in Hn
    by (exists (Charts.t1, Charts.t2); split; compute_done).
  all: discriminate Hn.
  all: exists (Charts.t2, Charts.t3); split; compute_done.
Qed.

Example rival_selected :
  _select_transitions Charts.eval (Charts.rival false) (Some (mkEvent "e"))
    (Charts.started (Charts.rival false) ["e"; "f"])
  = Returns [Charts.t1; Charts.t2; Charts.t3].
Proof. vm_compute. reflexivity. Qed.

(** The event has left the queue when the ordering fails. *)
Example rival_queue :
  let st := Charts.started (Charts.rival false) ["e"; "f"] in
  execute_once Charts.eval Charts.exec (Charts.rival false) 10 st
  = (set_events st [mkEvent "f"], Raises (Warning Conflicting)).
Proof. vm_compute. reflexivity. Qed.

Lemma memory_frame_witness :
  let sc := Charts.remembering in
  let st := Charts.at_history in
  let st1 := fst (_compute_stabilization_step sc st) in
  let step := mkMicroStep None None ["a"; "a1"] ["h"] in
  st1 = set_memory st {["h" := ["a"; "a1"]]}
  ∧ _memory (fst (_execute_step Charts.exec sc step st1)) = _memory st1.
Proof.
  cbv zeta.
  destruct (memory_frame Charts.exec Charts.remembering)
    as (_ & _ & Hcompute & Happly).
  set (st := Charts.at_history).
  set (r := _compute_stabilization_step Charts.remembering st).
  set (step := mkMicroStep None None ["a"; "a1"] ["h"]).
  set (r' := _execute_step Charts.exec Charts.remembering step (fst r)).
  split.
  - rewrite (proj1 (Hcompute st (fst r) (snd r) (surjective_pairing r))).
    vm_compute. reflexivity.
  - apply (Happly st (fst r) step (fst r') (snd r')).
    + apply map_Forall_lookup. compute_done.
    + vm_compute. reflexivity.
    + apply surjective_pairing.
Defined.

(** The frame of C9 as the specification words it fails: on the leaf [h],
    with the memory of [h] recorded as [a1] before [a], the computation of
    the stabilization step leaves [a] before [a1] in the memory. *)
Lemma stabilization_sorts_memory :
  ¬ (∀ st : Interpreter Recorder.state,
       _memory (fst (_compute_stabilization_step Charts.remembering st))
       = _memory st).
Proof.
  intros H. specialize (H Charts.at_history).
  apply (f_equal (fun m => m !! "h")) in H.
  vm_compute in H. discriminate H.
Qed.

Example memory_before_and_after :
  _memory Charts.at_history !! "h" = Some ["a1"; "a"]
  ∧ _compute_stabilization_step Charts.remembering Charts.at_history
    = (set_memory Charts.at_history {["h" := ["a"; "a1"]]},
       Returns (Some (mkMicroStep None None ["a"; "a1"] ["h"]))).
Proof. split; vm_compute; reflexivity. Qed.

(** * More of the interpreter *)

(** ** [send] and the [configuration] property *)

Section Interface.
Context {EvalState : Type}.
Variable sc : StateChart.
Implicit Types st : Interpreter EvalState.

Lemma send_all_external (evs : list Event) st :
  foldl (fun st ev => send ev false st) st evs
  = set_events st (_events st ++ evs).
Proof.
  revert st. induction evs as [|ev evs IH]; intros st; simpl.
  - rewrite app_nil_r. by destruct st.
  - rewrite IH. unfold send, set_events; simpl. by rewrite <- app_assoc.
Qed.

(** [send] touches the queue only: external events sent in turn line up
    behind the pending events in the order of the calls, and an internal
    event sent after them is in front of all of them. *)
Theorem send_order (evs : list Event) (ev : Event) st :
  foldl (fun st e => send e false st) st evs
  = set_events st (_events st ++ evs)
  ∧ send ev true (foldl (fun st e => send e false st) st evs)
    = set_events st (ev :: _events st ++ evs).
Proof.
  rewrite send_all_external. split; [done|]. by destruct st.
Qed.

Lemma name_depth_le_trans (a b c : string) :
  name_depth_le sc a b = true → name_depth_le sc b c = true →
  name_depth_le sc a c = true.
Proof. unfold name_depth_le. rewrite !Nat.leb_le. lia. Qed.

(** The [configuration] property lists every active state once, and no
    other name, by non-decreasing depth. *)
Theorem configuration_sorted st :
  (∀ s, s ∈ configuration sc st ↔ s ∈ _configuration st)
  ∧ NoDup (configuration sc st)
  ∧ length (configuration sc st) = size (_configuration st)
  ∧ StronglySorted (fun a b => depth_of sc a ≤ depth_of sc b)
      (configuration sc st).
Proof.
  unfold configuration.
  pose proof (sorted_Permutation (name_depth_le sc)
                (elements (_configuration st))) as Hperm.
  split_and!.
  - intros s. by rewrite Hperm, elem_of_elements.
  - rewrite Hperm. apply NoDup_elements.
  - by rewrite Hperm.
  - eapply StronglySorted_weaken;
      [|apply (sorted_StronglySorted (name_depth_le sc)
                 (name_depth_le_total sc) name_depth_le_trans)].
    intros a b. unfold name_depth_le. by rewrite Nat.leb_le.
Qed.

End Interface.

(** ** The selection of transitions *)

Section Selection.
Context {EvalState : Type}.
Variable evaluate_condition : EvalState -> string -> option Event -> bool.
Variable sc : StateChart.
Implicit Types st : Interpreter EvalState.

#[global] Instance enabled_dec st ev t :
  Decision (enabled evaluate_condition st ev t).
Proof. unfold enabled. apply _. Defined.

(** The loop over the transitions of one state, from any [found] and
    list. *)
Lemma scan_loop st ev (ts : list Transition) (found : bool)
    (acc : list Transition) :
  let r :=
    foldl (fun '(found, acc) t =>
             if bool_decide (event t ≠ ev)
                || bool_decide (from_state t ∉ _configuration st)
             then (found, acc)
             else if guard_holds evaluate_condition (_evaluator st) ev t
                  then (true,
                        if bool_decide (t ∈ acc) then acc else acc ++ [t])
                  else (found, acc))
          (found, acc) ts in
  (r.1 = true
   ↔ found = true ∨ ∃ t, t ∈ ts ∧ enabled evaluate_condition st ev t)
  ∧ (∀ t, t ∈ r.2
          ↔ t ∈ acc ∨ (t ∈ ts ∧ enabled evaluate_condition st ev t))
  ∧ (NoDup acc → NoDup r.2).
Proof.
  revert found acc. induction ts as [|t ts IH]; intros found acc; simpl.
  - split_and!; [|intros t|done].
    + split; [by left|]. by intros [?|(t & ?%elem_of_nil & _)].
    + split; [by left|]. by intros [?|[?%elem_of_nil _]].
  - destruct (decide (enabled evaluate_condition st ev t))
      as [He|Hne].
    + destruct He as (Hev & Hsrc & Hg).
      rewrite (bool_decide_eq_false_2 (event t ≠ ev)) by (by intros []).
      rewrite (bool_decide_eq_false_2 (from_state t ∉ _)) by (by intros []).
      simpl. rewrite Hg.
      destruct (IH true (if bool_decide (t ∈ acc) then acc else acc ++ [t]))
        as (Hf & Hin & Hnd).
      split_and!.
      * rewrite Hf. split; [|by left]. intros _. right. exists t.
        split; [by left|done].
      * intros u. rewrite Hin, elem_of_cons.
        case_bool_decide as Ht.
        -- split; [intros [?|[? ?]]; [by left|right; by split; [right|]]|].
           intros [?|[[->|?] ?]]; [by left|by left|by right].
        -- rewrite elem_of_app, list_elem_of_singleton.
           split.
           ++ intros [[?| ->]|[? ?]]; [by left|right|right].
              ** by split; [left|].
              ** by split; [right|].
           ++ intros [?|[[->|?] ?]]; [by left; left|by left; right|by right].
      * intros Hacc. apply Hnd. case_bool_decide as Ht; [done|].
        apply NoDup_app. split_and!; [done| |apply NoDup_singleton].
        by intros u Hu ->%list_elem_of_singleton.
    + assert ((if bool_decide (event t ≠ ev)
                  || bool_decide (from_state t ∉ _configuration st)
               then (found, acc)
               else if guard_holds evaluate_condition (_evaluator st) ev t
                    then (true, if bool_decide (t ∈ acc) then acc
                                else acc ++ [t])
                    else (found, acc)) = (found, acc)) as ->.
      { case_bool_decide as H1; [done|].
        case_bool_decide as H2; [done|]. simpl.
        destruct (guard_holds _ _ _ _) eqn:Hg; [|done].
        by destruct Hne. }
      destruct (IH found acc) as (Hf & Hin & Hnd). split_and!; [| |done].
      * rewrite Hf. split; (intros [?|(u & Hu & He)]; [by left|right]).
        -- exists u. by split; [right|].
        -- apply elem_of_cons in Hu as [->|Hu]; [done|]. by exists u.
      * intros u. rewrite Hin. split; (intros [?|[Hu He]]; [by left|right]).
        -- by split; [right|].
        -- apply elem_of_cons in Hu as [->|Hu]; [done|]. by split.
Qed.

Lemma scan_transitions_spec st ev ts acc :
  let r := scan_transitions evaluate_condition st ev ts acc in
  (r.1 = true ↔ ∃ t, t ∈ ts ∧ enabled evaluate_condition st ev t)
  ∧ (∀ t, t ∈ r.2
          ↔ t ∈ acc ∨ (t ∈ ts ∧ enabled evaluate_condition st ev t))
  ∧ (NoDup acc → NoDup r.2).
Proof.
  destruct (scan_loop st ev ts false acc) as (Hf & Hin & Hnd).
  split_and!; [|done..]. rewrite Hf. split; [|by right].
  by intros [?|?].
Qed.

Lemma select_from_spec st ev acc path :
  match select_from evaluate_condition sc st ev acc path with
  | Returns r =>
      (∀ t, t ∈ r →
         t ∈ acc
         ∨ ∃ s state, s ∈ path ∧ states sc !! s = Some state
             ∧ t ∈ state_transitions state
             ∧ enabled evaluate_condition st ev t)
      ∧ (∀ t, t ∈ acc → t ∈ r)
      ∧ (NoDup acc → NoDup r)
  | Raises e => ∃ k, e = KeyError k ∧ k ∈ path ∧ states sc !! k = None
  | Unfinished => False
  end.
Proof.
  revert acc. induction path as [|s path IH]; intros acc; simpl.
  - split_and!; auto.
  - destruct (states sc !! s) as [state|] eqn:Hs.
    + destruct (scan_transitions_spec st ev (state_transitions state) acc)
        as (Hf & Hin & Hnd).
      destruct (scan_transitions _ _ _ _ _) as [found acc'].
      simpl in Hf, Hin, Hnd.
      assert (Hsound : ∀ t, t ∈ acc' →
        t ∈ acc
        ∨ ∃ s0 state0, s0 ∈ s :: path ∧ states sc !! s0 = Some state0
            ∧ t ∈ state_transitions state0
            ∧ enabled evaluate_condition st ev t).
      { intros t [?|[? ?]]%Hin; [by left|right].
        exists s, state. by split_and!; [left|..]. }
      destruct found.
      * split_and!; [done| |done]. intros t Ht. apply Hin. by left.
      * specialize (IH acc').
        destruct (select_from _ _ _ _ _ _) as [r|e|]; [| |done].
        -- destruct IH as (Hr & Hmono & Hndr). split_and!.
           ++ intros t [Ht|(s0 & state0 & Hs0 & ? & ? & ?)]%Hr;
                [by apply Hsound|].
              right. exists s0, state0. by split_and!; [right|..].
           ++ intros t Ht. apply Hmono, Hin. by left.
           ++ intros Hacc. by apply Hndr, Hnd.
        -- destruct IH as (k & -> & Hk & Hnone). exists k.
           by split_and!; [|right|].
    + exists s. by split_and!; [|left|].
Qed.

(** The walk stops at the first state that has an enabled transition, and
    takes all the enabled transitions of that state. *)
Lemma select_from_first st ev acc (pre post : list string) (s : string)
    (state : State) (t : Transition) :
  Forall (quiet evaluate_condition sc st ev) pre →
  states sc !! s = Some state →
  t ∈ state_transitions state → enabled evaluate_condition st ev t →
  ∃ r, select_from evaluate_condition sc st ev acc (pre ++ s :: post)
       = Returns r
    ∧ ∀ u, u ∈ r
           ↔ u ∈ acc
             ∨ (u ∈ state_transitions state
                ∧ enabled evaluate_condition st ev u).
Proof.
  intros Hpre Hs Ht He. revert acc.
  induction Hpre as [|q pre (qs & Hq & Hquiet) _ IH]; intros acc; simpl.
  - rewrite Hs.
    destruct (scan_transitions_spec st ev (state_transitions state) acc)
      as (Hf & Hin & _).
    destruct (scan_transitions _ _ _ _ _) as [found acc'].
    simpl in Hf, Hin.
    assert (found = true) as -> by (apply Hf; by exists t).
    by exists acc'.
  - rewrite Hq.
    destruct (scan_transitions_spec st ev (state_transitions qs) acc)
      as (Hf & Hin & _).
    destruct (scan_transitions _ _ _ _ _) as [found acc'].
    simpl in Hf, Hin.
    assert (found = false) as ->.
    { destruct found; [|done]. destruct Hf as [(u & Hu & Hue) _]; [done|].
      by destruct (Hquiet u Hu). }
    destruct (IH acc') as (r & -> & Hr). exists r. split; [done|].
    intros u. rewrite Hr, Hin. split.
    + intros [[?|[Hu Hue]]|?]; [by left| |by right].
      by destruct (Hquiet u Hu).
    + intros [?|?]; [by left; left|by right].
Qed.

Lemma select_leaves_spec st ev leaves acc :
  match select_leaves evaluate_condition sc st ev leaves acc with
  | Returns r =>
      (∀ t, t ∈ r →
         t ∈ acc
         ∨ ∃ leaf s state, leaf ∈ leaves
             ∧ s ∈ leaf :: ancestors_for sc leaf
             ∧ states sc !! s = Some state
             ∧ t ∈ state_transitions state
             ∧ enabled evaluate_condition st ev t)
      ∧ (∀ t, t ∈ acc → t ∈ r)
      ∧ (NoDup acc → NoDup r)
  | Raises e =>
      ∃ k leaf, e = KeyError k ∧ leaf ∈ leaves
        ∧ k ∈ leaf :: ancestors_for sc leaf ∧ states sc !! k = None
  | Unfinished => False
  end.
Proof.
  revert acc. induction leaves as [|leaf leaves IH]; intros acc.
  - simpl. split_and!; auto.
  - cbn [select_leaves].
    pose proof (select_from_spec st ev acc (leaf :: ancestors_for sc leaf))
      as Hfrom.
    destruct (select_from _ _ _ _ _ _) as [acc'|e|]; simpl; [| |done].
    + destruct Hfrom as (Hsound & Hmono & Hnd). specialize (IH acc').
      destruct (select_leaves _ _ _ _ _ _) as [r|e|]; [| |done].
      * destruct IH as (Hr & Hmono' & Hnd'). split_and!.
        -- intros t [Ht|(l & s & state & Hl & ? & ? & ? & ?)]%Hr.
           ++ apply Hsound in Ht as [?|(s & state & ? & ? & ? & ?)];
                [by left|right].
              exists leaf, s, state. by split_and!; [left|..].
           ++ right. exists l, s, state. by split_and!; [right|..].
        -- intros t Ht. by apply Hmono', Hmono.
        -- intros Hacc. by apply Hnd', Hnd.
      * destruct IH as (k & l & -> & Hl & ? & ?). exists k, l.
        by split_and!; [|right|..].
    + destruct Hfrom as (k & -> & ? & ?). exists k, leaf.
      by split_and!; [|left|..].
Qed.

(** Every selected transition is enabled (its event is the requested one,
    its source is active, its guard holds) and belongs to a leaf of the
    configuration or to an ancestor of a leaf; no transition is selected
    twice. *)
Theorem select_transitions_sound st ev (r : list Transition) :
  _select_transitions evaluate_condition sc ev st = Returns r →
  NoDup r
  ∧ ∀ t, t ∈ r →
      enabled evaluate_condition st ev t
      ∧ ∃ s state, on_leaf_path sc st s ∧ states sc !! s = Some state
          ∧ t ∈ state_transitions state.
Proof.
  unfold _select_transitions. intros Hr.
  pose proof (select_leaves_spec st ev
                (leaf_for sc (elements (_configuration st))) []) as H.
  rewrite Hr in H. destruct H as (Hsound & _ & Hnd).
  split; [apply Hnd, NoDup_nil_2|].
  intros t [[]%elem_of_nil|(leaf & s & state & ? & ? & ? & ? & ?)]%Hsound.
  split; [done|]. exists s, state. split_and!; [|done..]. by exists leaf.
Qed.

Lemma select_transitions_total_outcome st ev :
  (∀ e, _select_transitions evaluate_condition sc ev st = Raises e →
     ∃ k, e = KeyError k ∧ on_leaf_path sc st k ∧ states sc !! k = None)
  ∧ ((∀ s, on_leaf_path sc st s → is_Some (states sc !! s)) →
     ∃ r, _select_transitions evaluate_condition sc ev st = Returns r).
Proof.
  unfold _select_transitions.
  pose proof (select_leaves_spec st ev
                (leaf_for sc (elements (_configuration st))) []) as H.
  destruct (select_leaves _ _ _ _ _ _) as [r|e|]; [| |done].
  - split; [done|]. intros _. by exists r.
  - destruct H as (k & leaf & -> & Hleaf & Hk & Hnone).
    assert (Hpath : on_leaf_path sc st k) by by exists leaf.
    split.
    + intros e [= <-]. by exists k.
    + intros Hall. destruct (Hall k Hpath) as [x Hx]. congruence.
Qed.

Lemma select_leaves_first st ev leaves acc (leaf : string)
    (pre post : list string) (s : string) (state : State)
    (t : Transition) (r : list Transition) :
  leaf ∈ leaves →
  leaf :: ancestors_for sc leaf = pre ++ s :: post →
  Forall (quiet evaluate_condition sc st ev) pre →
  states sc !! s = Some state →
  t ∈ state_transitions state → enabled evaluate_condition st ev t →
  select_leaves evaluate_condition sc st ev leaves acc = Returns r →
  ∀ u, u ∈ state_transitions state → enabled evaluate_condition st ev u →
       u ∈ r.
Proof.
  intros Hleaf Hpath Hpre Hs Ht He. revert acc.
  induction leaves as [|l leaves IH]; intros acc;
    [by apply elem_of_nil in Hleaf|].
  cbn [select_leaves].
  destruct (decide (l = leaf)) as [->|Hne].
  - rewrite Hpath.
    destruct (select_from_first st ev acc pre post s state t
                Hpre Hs Ht He) as (acc' & -> & Hacc').
    simpl. intros Hr u Hu Hue.
    pose proof (select_leaves_spec st ev leaves acc') as H.
    rewrite Hr in H. destruct H as (_ & Hmono & _).
    apply Hmono, Hacc'. by right.
  - apply elem_of_cons in Hleaf as [?|Hleaf]; [congruence|].
    destruct (select_from _ _ _ _ _ _) as [acc'| |]; simpl; [|done..].
    by apply IH.
Qed.

(** The closest enclosing state wins: on the way up from a leaf, the
    first state that has an enabled transition gives all its enabled
    transitions to the selection. *)
Theorem select_transitions_closest st ev (leaf : string)
    (pre post : list string) (s : string) (state : State)
    (t : Transition) (r : list Transition) :
  leaf ∈ leaf_for sc (elements (_configuration st)) →
  leaf :: ancestors_for sc leaf = pre ++ s :: post →
  Forall (quiet evaluate_condition sc st ev) pre →
  states sc !! s = Some state →
  t ∈ state_transitions state → enabled evaluate_condition st ev t →
  _select_transitions evaluate_condition sc ev st = Returns r →
  ∀ u, u ∈ state_transitions state → enabled evaluate_condition st ev u →
       u ∈ r.
Proof. apply select_leaves_first. Qed.

(** With one leaf, the selection is exactly the enabled transitions of the
    first state, from the leaf upward, that has one: the transitions of
    the states above it are left out. *)
Theorem select_transitions_single_leaf st ev (leaf : string)
    (pre post : list string) (s : string) (state : State)
    (t : Transition) :
  leaf_for sc (elements (_configuration st)) = [leaf] →
  leaf :: ancestors_for sc leaf = pre ++ s :: post →
  Forall (quiet evaluate_condition sc st ev) pre →
  states sc !! s = Some state →
  t ∈ state_transitions state → enabled evaluate_condition st ev t →
  ∃ r, _select_transitions evaluate_condition sc ev st = Returns r
    ∧ ∀ u, u ∈ r
           ↔ u ∈ state_transitions state
             ∧ enabled evaluate_condition st ev u.
Proof.
  intros Hleaves Hpath Hpre Hs Ht He. unfold _select_transitions.
  rewrite Hleaves. cbn [select_leaves]. rewrite Hpath.
  destruct (select_from_first st ev [] pre post s state t Hpre Hs Ht He)
    as (r & -> & Hr).
  exists r. split; [done|]. intros u. rewrite Hr. split; [|by right].
  by intros [?%elem_of_nil|?].
Qed.

End Selection.

Section RaisingSelection.
Context {EvalState : Type}.
Variable evaluate_condition :
  EvalState -> string -> option Event -> outcome bool.
Variable sc : StateChart.
Implicit Types st : Interpreter EvalState.

Lemma scan_transitions_raises st ev ts found acc e :
  Raising.scan_transitions evaluate_condition st ev ts found acc = Raises e →
  ∃ t g, t ∈ ts ∧ event t = ev ∧ from_state t ∈ _configuration st
    ∧ guard t = Some g
    ∧ evaluate_condition (_evaluator st) g ev = Raises e.
Proof.
  revert found acc. induction ts as [|t ts IH]; intros found acc; simpl;
    [done|].
  assert (Hrest : ∀ found' acc',
    Raising.scan_transitions evaluate_condition st ev ts found' acc'
    = Raises e →
    ∃ t0 g, t0 ∈ t :: ts ∧ event t0 = ev
      ∧ from_state t0 ∈ _configuration st ∧ guard t0 = Some g
      ∧ evaluate_condition (_evaluator st) g ev = Raises e).
  { intros found' acc' (t0 & g & ? & ?)%IH. exists t0, g.
    by split; [right|]. }
  case_bool_decide as Hev; [by apply Hrest|].
  case_bool_decide as Hsrc; [by apply Hrest|]. simpl.
  unfold Raising.guard_holds.
  destruct (guard t) as [g|] eqn:Hg; [|by apply Hrest].
  destruct (evaluate_condition (_evaluator st) g ev) as [[|]|e'|] eqn:Hcall;
    [by apply Hrest|by apply Hrest| |done].
  intros [= ->]. exists t, g. split_and!; [by left| | |done..].
  - by destruct (decide (event t = ev)).
  - by destruct (decide (from_state t ∈ _configuration st)).
Qed.

Lemma select_from_raises st ev acc path e :
  Raising.select_from evaluate_condition sc st ev acc path = Raises e →
  (∃ k, e = KeyError k ∧ k ∈ path ∧ states sc !! k = None)
  ∨ ∃ s state t g,
      s ∈ path ∧ states sc !! s = Some state
      ∧ t ∈ state_transitions state
      ∧ event t = ev ∧ from_state t ∈ _configuration st
      ∧ guard t = Some g
      ∧ evaluate_condition (_evaluator st) g ev = Raises e.
Proof.
  revert acc. induction path as [|s path IH]; intros acc; simpl; [done|].
  destruct (states sc !! s) as [state|] eqn:Hs.
  - destruct (Raising.scan_transitions _ _ _ _ _ _)
      as [[[|] acc']|e'|] eqn:Hscan; [done| | |done].
    + intros [(k & ? & ? & ?)|(s0 & state0 & t & g & ? & ?)]%IH.
      * left. exists k. by split_and!; [|right|].
      * right. exists s0, state0, t, g. by split; [right|].
    + intros [= ->].
      apply scan_transitions_raises in Hscan as (t & g & ? & ? & ? & ? & ?).
      right. exists s, state, t, g. split; [by left|]. by split_and!.
  - intros [= <-]. left. exists s. by split_and!; [|left|].
Qed.

Lemma select_leaves_raises st ev leaves acc e :
  Raising.select_leaves evaluate_condition sc st ev leaves acc = Raises e →
  (∃ k leaf, e = KeyError k ∧ leaf ∈ leaves
     ∧ k ∈ leaf :: ancestors_for sc leaf ∧ states sc !! k = None)
  ∨ ∃ leaf s state t g,
      leaf ∈ leaves ∧ s ∈ leaf :: ancestors_for sc leaf
      ∧ states sc !! s = Some state
      ∧ t ∈ state_transitions state
      ∧ event t = ev ∧ from_state t ∈ _configuration st
      ∧ guard t = Some g
      ∧ evaluate_condition (_evaluator st) g ev = Raises e.
Proof.
  revert acc. induction leaves as [|leaf leaves IH]; intros acc;
    cbn [Raising.select_leaves]; [done|].
  destruct (Raising.select_from _ _ _ _ _ _) as [acc'|e'|] eqn:Hfrom;
    [| |done].
  - intros [(k & l & ? & ? & ? & ?)|(l & s & state & t & g & ? & ?)]%IH.
    + left. exists k, l. by split_and!; [|right|..].
    + right. exists l, s, state, t, g. by split; [right|].
  - intros [= ->].
    apply select_from_raises in Hfrom
      as [(k & ? & ? & ?)|(s & state & t & g & ? & ?)].
    + left. exists k, leaf. by split_and!; [|left|..].
    + right. exists leaf, s, state, t, g. by split; [left|].
Qed.

(** With an evaluator that returns on every guard, the selection is the
    one of the evaluator as a function. *)
Section Agreement.
Variable f : EvalState -> string -> option Event -> bool.
Variables (st : Interpreter EvalState) (ev : option Event).
Hypothesis Hf :
  ∀ g, evaluate_condition (_evaluator st) g ev
       = Returns (f (_evaluator st) g ev).

Lemma scan_transitions_agree ts found acc :
  Raising.scan_transitions evaluate_condition st ev ts found acc
  = Returns
      (foldl (fun '(found, acc) t =>
                if bool_decide (event t ≠ ev)
                   || bool_decide (from_state t ∉ _configuration st)
                then (found, acc)
                else if guard_holds f (_evaluator st) ev t
                     then (true,
                           if bool_decide (t ∈ acc) then acc
                           else acc ++ [t])
                     else (found, acc))
         (found, acc) ts).
Proof.
  revert found acc. induction ts as [|t ts IH]; intros found acc; simpl;
    [done|].
  destruct (bool_decide (event t ≠ ev)
            || bool_decide (from_state t ∉ _configuration st)); [apply IH|].
  unfold Raising.guard_holds, guard_holds.
  destruct (guard t) as [g|]; [|apply IH].
  rewrite Hf. destruct (f (_evaluator st) g ev); apply IH.
Qed.

Lemma select_from_agree acc path :
  Raising.select_from evaluate_condition sc st ev acc path
  = select_from f sc st ev acc path.
Proof.
  revert acc. induction path as [|s path IH]; intros acc; simpl; [done|].
  destruct (states sc !! s) as [state|]; [|done].
  rewrite scan_transitions_agree. unfold scan_transitions.
  destruct (foldl _ _ _) as [[|] acc']; [done|apply IH].
Qed.

Lemma select_leaves_agree leaves acc :
  Raising.select_leaves evaluate_condition sc st ev leaves acc
  = select_leaves f sc st ev leaves acc.
Proof.
  revert acc. induction leaves as [|leaf leaves IH]; intros acc;
    cbn [Raising.select_leaves select_leaves]; [done|].
  rewrite select_from_agree.
  destruct (select_from _ _ _ _ _ _) as [acc'|e|]; simpl; [apply IH|done..].
Qed.

End Agreement.

(** The outcome of [_select_transitions] with an evaluator that can
    raise. The selection raises nothing but a [KeyError], for a leaf or an
    ancestor of a leaf that is not a state of the chart, and the exception
    of a guard it evaluates. When the evaluator returns on every guard, the
    selection is the one of the evaluator as a function, and it returns
    when every leaf and every ancestor of a leaf is a state of the
    chart. *)
Theorem select_transitions_outcome st ev :
  (∀ e, Raising._select_transitions evaluate_condition sc ev st = Raises e →
     (∃ k, e = KeyError k ∧ on_leaf_path sc st k ∧ states sc !! k = None)
     ∨ Raising.guard_raises evaluate_condition sc st ev e)
  ∧ (∀ f : EvalState -> string -> option Event -> bool,
       (∀ g, evaluate_condition (_evaluator st) g ev
             = Returns (f (_evaluator st) g ev)) →
       Raising._select_transitions evaluate_condition sc ev st
       = _select_transitions f sc ev st
       ∧ ((∀ s, on_leaf_path sc st s → is_Some (states sc !! s)) →
          ∃ r, Raising._select_transitions evaluate_condition sc ev st
               = Returns r)).
Proof.
  split.
  - intros e
      [(k & leaf & ? & ? & ? & ?)
      |(leaf & s & state & t & g & ? & ? & ?)]%select_leaves_raises.
    + left. exists k. split_and!; [done| |done]. by exists leaf.
    + right. exists s, state, t, g. split; [by exists leaf|done].
  - intros f Hf.
    assert (Hsame : Raising._select_transitions evaluate_condition sc ev st
                    = _select_transitions f sc ev st)
      by (by apply select_leaves_agree).
    split; [exact Hsame|]. intros Hall. rewrite Hsame.
    by apply select_transitions_total_outcome.
Qed.

End RaisingSelection.

Lemma select_transitions_sound_witness :
  let st := Charts.started (Charts.nested false) [] in
  NoDup [Charts.on "e" "A" "A"; Charts.on "e" "x" "y"]
  ∧ enabled Charts.eval st (Some (mkEvent "e")) (Charts.on "e" "x" "y").
Proof.
  cbv zeta.
  destruct (select_transitions_sound Charts.eval (Charts.nested false)
              (Charts.started (Charts.nested false) [])
              (Some (mkEvent "e"))
              [Charts.on "e" "A" "A"; Charts.on "e" "x" "y"])
    as [Hnd Hsound].
  - vm_compute. reflexivity.
  - split; [exact Hnd|]. apply Hsound. compute_done.
Defined.

Lemma select_transitions_outcome_witness :
  let st := Charts.started Raising.guarded [] in
  let ev := Some (mkEvent "e") in
  Raising._select_transitions Raising.asserting Raising.guarded ev st
  = Raises AssertionError
  ∧ Raising.guard_raises Raising.asserting Raising.guarded st ev
      AssertionError
  ∧ Raising._select_transitions Raising.total (Charts.nested false) ev
      (Charts.started (Charts.nested false) [])
    = Returns [Charts.on "e" "A" "A"; Charts.on "e" "x" "y"].
Proof.
  cbv zeta. split_and!.
  - vm_compute. reflexivity.
  - destruct (select_transitions_outcome Raising.asserting Raising.guarded
                (Charts.started Raising.guarded []) (Some (mkEvent "e")))
      as [Hraises _].
    destruct (Hraises AssertionError) as [(k & Hk & _)|Hguard].
    + vm_compute. reflexivity.
    + discriminate Hk.
    + exact Hguard.
  - destruct (select_transitions_outcome Raising.total (Charts.nested false)
                (Charts.started (Charts.nested false) [])
                (Some (mkEvent "e"))) as [_ Hreturns].
    destruct (Hreturns Recorder.evaluate_condition) as [-> _].
    + intros g. reflexivity.
    + vm_compute. reflexivity.
Defined.

Lemma select_transitions_closest_witness :
  Charts.on "e" "A" "A"
  ∈ [Charts.on "e" "A" "A"; Charts.on "e" "x" "y"].
Proof.
  apply (select_transitions_closest Charts.eval (Charts.nested false)
           (Charts.started (Charts.nested false) []) (Some (mkEvent "e"))
           "z" ["z"; "R2"] ["O"] "A"
           (Charts.orthogonal "A" ["R1"; "R2"] [Charts.on "e" "A" "A"])
           (Charts.on "e" "A" "A")).
  - compute_done.
  - vm_compute. reflexivity.
  - repeat constructor.
    + exists (Charts.basic "z" []). split; [vm_compute; reflexivity|].
      by intros t ?%elem_of_nil.
    + exists (Charts.compound "R2" "z" ["z"] []).
      split; [vm_compute; reflexivity|]. by intros t ?%elem_of_nil.
  - vm_compute. reflexivity.
  - compute_done.
  - compute_done.
  - vm_compute. reflexivity.
  - compute_done.
  - compute_done.
Defined.

Lemma select_transitions_single_leaf_witness :
  let st := Charts.started Towers.tower [] in
  let ev := Some (mkEvent "e") in
  enabled Charts.eval st ev (Charts.on "e" "top" "top")
  ∧ ∃ r, _select_transitions Charts.eval Towers.tower ev st = Returns r
      ∧ (∀ u, u ∈ r
              ↔ u ∈ [Charts.on "e" "mid" "mid"]
                ∧ enabled Charts.eval st ev u)
      ∧ Charts.on "e" "top" "top" ∉ r.
Proof.
  cbv zeta. split; [compute_done|].
  destruct (select_transitions_single_leaf Charts.eval Towers.tower
              (Charts.started Towers.tower []) (Some (mkEvent "e"))
              "leaf" ["leaf"] ["top"] "mid"
              (Charts.compound "mid" "leaf" ["leaf"]
                 [Charts.on "e" "mid" "mid"])
              (Charts.on "e" "mid" "mid")) as (r & Hr & Hiff).
  - vm_compute. reflexivity.
  - vm_compute. reflexivity.
  - repeat constructor. exists (Charts.basic "leaf" []).
    split; [vm_compute; reflexivity|]. by intros t ?%elem_of_nil.
  - vm_compute. reflexivity.
  - compute_done.
  - compute_done.
  - exists r. split_and!; [done..|].
    intros [Hin _]%Hiff. apply list_elem_of_singleton in Hin.
    discriminate Hin.
Defined.

(** ** More on the ordering *)

Lemma combinations2_cover {A} (l : list A) (x : A) :
  1 < length l → x ∈ l →
  ∃ p, p ∈ combinations2 l ∧ (p.1 = x ∨ p.2 = x).
Proof.
  induction l as [|y l IH]; intros Hlen Hx; [by apply elem_of_nil in Hx|].
  simpl. apply elem_of_cons in Hx as [->|Hx].
  - destruct l as [|z l]; [simpl in Hlen; lia|].
    exists (y, z). split; [|by left]. apply elem_of_app. left.
    apply (list_elem_of_fmap_2 (pair y)). by left.
  - exists (y, x). split; [|by right]. apply elem_of_app. left.
    by apply (list_elem_of_fmap_2 (pair y)).
Qed.

Lemma NoDup_fmap_eq {A B} (f : A → B) (l : list A) (x y : A) :
  NoDup (f <$> l) → x ∈ l → y ∈ l → f x = f y → x = y.
Proof.
  induction l as [|z l IH]; intros Hnd Hx Hy Hf;
    [by apply elem_of_nil in Hx|].
  rewrite fmap_cons in Hnd. apply NoDup_cons in Hnd as [Hz Hnd].
  apply elem_of_cons in Hx as [->|Hx]; apply elem_of_cons in Hy as [->|Hy].
  - done.
  - destruct Hz. rewrite Hf. by apply list_elem_of_fmap_2.
  - destruct Hz. rewrite <- Hf. by apply list_elem_of_fmap_2.
  - by apply IH.
Qed.

Section MoreOrdering.
Variable sc : StateChart.

(** An internal transition cannot fire with another transition: a set of
    two or more transitions that holds one with no target is always
    refused, since no target is never in a branch. *)
Theorem internal_transition_refused (ts : list Transition)
    (t : Transition) :
  1 < length ts → t ∈ ts → to_state t = None →
  ∃ k, _sort_transitions sc ts = Raises (Warning k).
Proof.
  intros Hlen Ht Hnone.
  destruct (combinations2_cover ts t Hlen Ht) as (p & Hp & Hpt).
  assert (Hbad : ¬ sound sc p).
  { intros [_ Hesc]. apply Hesc.
    destruct Hpt as [<-|<-]; [left|right];
      intros (target & Htarget & _); congruence. }
  destruct (first_fault sc (combinations2 ts))
    as [Hs|(pre & q & post & k & E & Hpre & Hq)].
  - rewrite Forall_forall in Hs. destruct Hbad. by apply Hs.
  - unfold _sort_transitions. rewrite bool_decide_eq_true_2 by done.
    exists k. by rewrite E, (check_pairs_first_fault sc pre post q k).
Qed.

(** The order of firing does not depend on the order in which the
    transitions were selected, when their sources are all different. *)
Theorem sort_transitions_reproducible (ts ts' r r' : list Transition) :
  ts ≡ₚ ts' → NoDup (from_state <$> ts) →
  _sort_transitions sc ts = Returns r →
  _sort_transitions sc ts' = Returns r' →
  r = r'.
Proof.
  intros Hperm Hnd. unfold _sort_transitions.
  rewrite <- (Permutation_length Hperm).
  case_bool_decide as Hlen.
  - destruct (check_pairs sc (combinations2 ts)); simpl; [|done..].
    destruct (check_pairs sc (combinations2 ts')); simpl; [|done..].
    intros [= <-] [= <-].
    apply (StronglySorted_unique_strong (fires_before sc)).
    + intros x y Hx Hy Hxy Hyx.
      rewrite arbitrary_order_Permutation in Hx, Hy.
      rewrite <- Hperm in Hy.
      apply (NoDup_fmap_eq from_state ts); [done..|].
      unfold fires_before in Hxy, Hyx.
      destruct Hxy as [?|[? Hxy]], Hyx as [?|[? Hyx]]; try lia.
      by apply (anti_symm String.le).
    + apply arbitrary_order_sorted.
    + apply arbitrary_order_sorted.
    + by rewrite !arbitrary_order_Permutation.
  - intros [= <-] [= <-].
    destruct ts as [|x [|y ts]]; [| |simpl in Hlen; lia].
    + by apply Permutation_nil_l in Hperm.
    + by apply Permutation_singleton_l in Hperm.
Qed.

End MoreOrdering.

Lemma internal_transition_refused_witness :
  ∃ k, _sort_transitions Charts.twin
         [Charts.ta; mkTransition "b" None (Some (mkEvent "e")) None None]
       = Raises (Warning k).
Proof.
  apply (internal_transition_refused Charts.twin _
           (mkTransition "b" None (Some (mkEvent "e")) None None)).
  - simpl. lia.
  - compute_done.
  - reflexivity.
Defined.

Lemma sort_transitions_reproducible_witness :
  arbitrary_order Charts.twin [Charts.ta; Charts.tb]
  = arbitrary_order Charts.twin [Charts.tb; Charts.ta].
Proof.
  apply (sort_transitions_reproducible Charts.twin
           [Charts.ta; Charts.tb] [Charts.tb; Charts.ta]).
  - apply perm_swap.
  - compute_done.
  - vm_compute. reflexivity.
  - vm_compute. reflexivity.
Defined.

(** ** More on applying a micro-step *)

Section MoreExecution.
Context {EvalState : Type}.
Variable execute_action :
  EvalState -> string -> option Event -> EvalState * list Event.
Variable sc : StateChart.
Implicit Types st : Interpreter EvalState.

Lemma lookup_states_outcome (names : list string) :
  (∃ l, lookup_states sc names = Returns l)
  ∨ ∃ k, k ∈ names ∧ states sc !! k = None
      ∧ lookup_states sc names = Raises (KeyError k).
Proof.
  induction names as [|n names IH]; simpl; [left; by eexists|].
  destruct (states sc !! n) as [s|] eqn:E.
  - destruct IH as [[l ->]|(k & Hk & Hnone & ->)]; simpl.
    + left. by eexists.
    + right. exists k. by split_and!; [right|..].
  - right. exists n. by split_and!; [left|..].
Qed.

Lemma lookup_states_missing (names : list string) (k : string) :
  k ∈ names → states sc !! k = None →
  ∃ k', lookup_states sc names = Raises (KeyError k').
Proof.
  intros Hk Hnone.
  destruct (lookup_states_outcome names) as [[l Hl]|(k' & _ & _ & ->)];
    [|by eexists].
  revert l Hl. induction names as [|n names IH]; intros l; simpl;
    [by apply elem_of_nil in Hk|].
  destruct (states sc !! n) as [s|] eqn:E; [|done].
  apply elem_of_cons in Hk as [->|Hk]; [congruence|].
  destruct (lookup_states sc names) as [l'| |] eqn:E'; simpl; [|done..].
  destruct (IH Hk l' eq_refl) as [k' Hk']. congruence.
Qed.

Lemma record_children_outcome name children todo st st' o :
  record_children sc name children todo st = (st', o) →
  o = Returns tt ∨ ∃ e, o = Raises e ∧ memory_error sc e.
Proof.
  revert st. induction todo as [|c todo IH]; intros st; simpl.
  - intros [= <- <-]. by left.
  - destruct (states sc !! c) as [child|] eqn:E.
    + unfold bind.
      destruct (record_history sc name children child st) as [st1 o1] eqn:E1.
      destruct child; simpl in E1; try (injection E1 as <- <-; apply IH).
      destruct (if deep then _ else _); injection E1 as <- <-; [apply IH|].
      intros [= <- <-]. right. eexists. split; [done|by left].
    + intros [= <- <-]. right. eexists. split; [done|]. right. by exists c.
Qed.

Lemma record_memory_outcome exited st st' o :
  record_memory sc exited st = (st', o) →
  o = Returns tt ∨ ∃ e, o = Raises e ∧ memory_error sc e.
Proof.
  revert st. induction exited as [|s exited IH]; intros st; simpl.
  - intros [= <- <-]. by left.
  - destruct s; try apply IH. unfold bind.
    destruct (record_children sc name children children st)
      as [st1 o1] eqn:E.
    destruct (record_children_outcome _ _ _ _ _ _ E)
      as [->|(e & -> & He)]; [apply IH|].
    intros [= <- <-]. right. by exists e.
Qed.

(** The three ways in which [_execute_step] ends. *)
Lemma execute_step_cases (step : MicroStep) st st' o :
  _execute_step execute_action sc step st = (st', o) →
  (st' = st
   ∧ ∃ k, o = Raises (KeyError k) ∧ states sc !! k = None
       ∧ k ∈ entered_states step ++ exited_states step)
  ∨ (∃ exited m e,
       lookup_states sc (exited_states step) = Returns exited
       ∧ st' = set_memory
                 (run_actions execute_action state_on_exit exited st) m
       ∧ o = Raises e ∧ memory_error sc e)
  ∨ o = Returns tt.
Proof.
  unfold _execute_step, bind, lift, modify.
  destruct (lookup_states_outcome (entered_states step))
    as [[entered ->]|(k & Hk & Hnone & ->)].
  - destruct (lookup_states_outcome (exited_states step))
      as [[exited ->]|(k & Hk & Hnone & ->)].
    + destruct (record_memory sc exited _) as [st1 o1] eqn:E.
      destruct (record_memory_frame _ _ _ _ _ E) as [m ->].
      destruct (record_memory_outcome _ _ _ _ E) as [->|(e & -> & He)].
      * intros [= <- <-]. by right; right.
      * intros [= <- <-]. right; left. by exists exited, m, e.
    + intros [= <- <-]. left. split; [done|]. exists k.
      split_and!; [done..|]. apply elem_of_app. by right.
  - intros [= <- <-]. left. split; [done|]. exists k.
    split_and!; [done..|]. apply elem_of_app. by left.
Qed.

(** When a micro-step has been applied, the configuration is the former
    one without the exited states and with the entered states; a state
    that is exited and entered is active. *)
Theorem execute_step_configuration (step : MicroStep) st st' :
  _execute_step execute_action sc step st = (st', Returns tt) →
  _configuration st'
  = (_configuration st ∖ list_to_set (exited_states step))
    ∪ list_to_set (entered_states step).
Proof.
  intros (entered & exited & m & _ & _ & _ & ->)%execute_step_returns.
  cbv zeta. rewrite run_transition_action_spec, !run_actions_spec. done.
Qed.

(** The two failures of a micro-step that come before the configuration
    is touched. When a name of the step is not a state of the chart, the
    step raises a [KeyError] before any action runs, and nothing at all has
    changed. When the exit actions have run and the recording of the
    history memory fails, by a failed assertion or by a child that is not
    a state of the chart, the step raises that exception and the
    configuration is as it was. *)
Theorem execute_step_failure (step : MicroStep) st :
  (∀ k, k ∈ entered_states step ++ exited_states step →
        states sc !! k = None →
        ∃ k', _execute_step execute_action sc step st
              = (st, Raises (KeyError k')))
  ∧ (∀ entered exited st1 e,
       lookup_states sc (entered_states step) = Returns entered →
       lookup_states sc (exited_states step) = Returns exited →
       record_memory sc exited
         (run_actions execute_action state_on_exit exited st)
       = (st1, Raises e) →
       _execute_step execute_action sc step st = (st1, Raises e)
       ∧ _configuration st1 = _configuration st
       ∧ memory_error sc e).
Proof.
  split.
  - intros k Hk Hnone. unfold _execute_step, bind, lift, modify.
    apply elem_of_app in Hk as [Hk|Hk].
    + destruct (lookup_states_missing _ _ Hk Hnone) as [k' ->].
      by exists k'.
    + destruct (lookup_states_outcome (entered_states step))
        as [[entered ->]|(k' & _ & _ & ->)]; [|by exists k'].
      destruct (lookup_states_missing _ _ Hk Hnone) as [k' ->].
      by exists k'.
  - intros entered exited st1 e Hen Hex Hrec.
    destruct (record_memory_frame _ _ _ _ _ Hrec) as [m ->].
    destruct (record_memory_outcome _ _ _ _ Hrec) as [[=]|(e' & [= <-] & He)].
    split_and!; [|by rewrite run_actions_spec|done].
    unfold _execute_step, bind, lift, modify. by rewrite Hen, Hex, Hrec.
Qed.

(** The queue through a micro-step. *)
Lemma execute_step_queue_grows (step : MicroStep) st st' o :
  _execute_step execute_action sc step st = (st', o) →
  ∃ front, _events st' = front ++ _events st.
Proof.
  intros H.
  destruct (execute_step_cases _ _ _ _ H)
    as [(-> & _)|[(ex & m & e & _ & -> & _)| ->]].
  - by exists [].
  - rewrite run_actions_spec. by eexists.
  - apply execute_step_returns in H
      as (entered & exited & m & _ & _ & _ & ->).
    cbv zeta. rewrite run_transition_action_spec, !run_actions_spec.
    simpl. rewrite app_assoc. by eexists.
Qed.

(** Whatever the outcome of a micro-step, the events that were queued are
    still queued, in their order, behind the events that the step has
    added. *)
Theorem execute_step_keeps_queue (step : MicroStep) st st' o :
  _execute_step execute_action sc step st = (st', o) →
  ∃ front, _events st' = front ++ _events st.
Proof. apply execute_step_queue_grows. Qed.

End MoreExecution.

(** ** The stabilizer *)

Section Stabilizer.
Context {EvalState : Type}.
Variable execute_action :
  EvalState -> string -> option Event -> EvalState * list Event.
Variable sc : StateChart.
Implicit Types st : Interpreter EvalState.

Lemma stabilization_scan_none leaves st st' :
  stabilization_scan sc leaves st = (st', Returns None) → st' = st.
Proof.
  induction leaves as [|leaf leaves IH]; simpl.
  - by intros [= <-].
  - destruct (states sc !! leaf) as [state|]; [|done].
    destruct state; try exact IH; try done.
    destruct (truthy initial); [done|exact IH].
Qed.

(** A stabilization step carries no event and no transition; it exits
    nothing, or the history state that it resolves. *)
Lemma stabilization_scan_some leaves st st' (step : MicroStep) :
  stabilization_scan sc leaves st = (st', Returns (Some step)) →
  ms_event step = None ∧ ms_transition step = None
  ∧ (exited_states step = []
     ∨ ∃ leaf h i d, leaf ∈ leaves
         ∧ states sc !! leaf = Some (HistoryState h i d)
         ∧ exited_states step = [h]).
Proof.
  induction leaves as [|leaf leaves IH]; simpl; [done|].
  assert (Hrest :
    stabilization_scan sc leaves st = (st', Returns (Some step)) →
    ms_event step = None ∧ ms_transition step = None
    ∧ (exited_states step = []
       ∨ ∃ l h i d, l ∈ leaf :: leaves
           ∧ states sc !! l = Some (HistoryState h i d)
           ∧ exited_states step = [h])).
  { intros (? & ? & [?|(l & h & i & d & ? & ? & ?)])%IH;
      split_and!; [done|done|by left|done|done|right].
    exists l, h, i, d. by split_and!; [right|..]. }
  destruct (states sc !! leaf) as [state|] eqn:E; [|done].
  destruct state; try exact Hrest.
  - destruct (truthy initial); [|exact Hrest].
    intros [= <- <-]. split_and!; [done|done|by left].
  - intros [= <- <-]. split_and!; [done|done|by left].
  - unfold bind, history_step. intros [= <- <-].
    split_and!; [done|done|right].
    exists leaf, name, initial, deep. by split_and!; [left|..].
Qed.

Lemma compute_stabilization_step_frame st st' o :
  _compute_stabilization_step sc st = (st', o) →
  ∃ m, st' = set_memory st m.
Proof.
  unfold _compute_stabilization_step.
  intros [->|(h & l & _ & ->)]%stabilization_scan_effect; [|by eexists].
  exists (_memory st). by destruct st.
Qed.

Lemma stabilize_keeps_queue (fuel : nat) st st' o :
  _stabilize execute_action sc fuel st = (st', o) →
  ∃ front, _events st' = front ++ _events st.
Proof.
  revert st st' o. induction fuel as [|fuel IH]; intros st st' o; simpl.
  - intros [= <- <-]. by exists [].
  - unfold bind.
    destruct (_compute_stabilization_step sc st) as [st1 o1] eqn:E1.
    destruct (compute_stabilization_step_frame _ _ _ E1) as [m ->].
    destruct o1 as [[step|]| |]; try (intros [= <- <-]; by exists []).
    destruct (_execute_step execute_action sc step _) as [st2 o2] eqn:E2.
    destruct (execute_step_queue_grows _ _ _ _ _ _ E2) as [f2 Hf2].
    simpl in Hf2.
    destruct o2; try (intros [= <- <-]; by exists f2).
    destruct (_stabilize execute_action sc fuel st2) as [st3 o3] eqn:E3.
    destruct (IH _ _ _ E3) as [f3 Hf3].
    assert (Hq : _events st3 = (f3 ++ f2) ++ _events st)
      by by rewrite Hf3, Hf2, app_assoc.
    destruct o3; intros [= <- <-]; by eexists.
Qed.

(** When the stabilizer returns, it has reached a configuration on which
    no stabilization step is computed: stabilizing again returns no step
    and changes nothing. *)
Theorem stabilize_fixed_point (fuel : nat) st st' (steps : list MicroStep) :
  _stabilize execute_action sc fuel st = (st', Returns steps) →
  _compute_stabilization_step sc st' = (st', Returns None)
  ∧ ∀ n, _stabilize execute_action sc (S n) st' = (st', Returns []).
Proof.
  intros H.
  assert (Hfix : _compute_stabilization_step sc st' = (st', Returns None)).
  { revert st steps H. induction fuel as [|fuel IH]; intros st steps;
      simpl; [done|].
    unfold bind.
    destruct (_compute_stabilization_step sc st) as [st1 o1] eqn:E1.
    destruct o1 as [[step|]| |]; [| |done..].
    - destruct (_execute_step execute_action sc step st1) as [st2 [[]| |]];
        [|done..].
      destruct (_stabilize execute_action sc fuel st2)
        as [st3 [more| |]] eqn:E3; [|done..].
      intros [= <- <-]. by apply (IH _ _ E3).
    - intros [= <- <-].
      pose proof E1 as ->%stabilization_scan_none. done. }
  split; [done|]. intros n. simpl. unfold bind. by rewrite Hfix.
Qed.

(** The shape of the stabilization steps. *)
Lemma stabilize_steps_shape (fuel : nat) st st' (steps : list MicroStep) :
  _stabilize execute_action sc fuel st = (st', Returns steps) →
  Forall (fun step =>
            ms_event step = None ∧ ms_transition step = None
            ∧ length (exited_states step) ≤ 1) steps.
Proof.
  revert st steps. induction fuel as [|fuel IH]; intros st steps;
    simpl; [done|].
  unfold bind.
  destruct (_compute_stabilization_step sc st) as [st1 o1] eqn:E1.
  destruct o1 as [[step|]| |]; [| |done..].
  - destruct (_execute_step execute_action sc step st1) as [st2 [[]| |]];
      [|done..].
    destruct (_stabilize execute_action sc fuel st2)
      as [st3 [more| |]] eqn:E3; [|done..].
    intros [= <- <-]. constructor; [|by apply (IH _ _ E3)].
    apply stabilization_scan_some in E1
      as (? & ? & [->|(? & ? & ? & ? & _ & _ & ->)]); simpl; auto.
  - intros [= <- <-]. constructor.
Qed.

(** The micro-steps of the stabilizer carry no event and no transition,
    and each exits at most one state. *)
Theorem stabilize_steps (fuel : nat) st st' (steps : list MicroStep) :
  _stabilize execute_action sc fuel st = (st', Returns steps) →
  Forall (fun step =>
            ms_event step = None ∧ ms_transition step = None
            ∧ length (exited_states step) ≤ 1) steps.
Proof. apply stabilize_steps_shape. Qed.

End Stabilizer.

Lemma stabilize_fixed_point_witness :
  let sc := Charts.nested false in
  let st := mkInterpreter [] ∅ {["O"]} [] in
  let r := _stabilize Charts.exec sc 10 st in
  elements (_configuration (fst r)) = ["O"; "A"; "z"; "R1"; "R2"; "B"; "x"]
  ∧ length (default [] (match snd r with Returns l => Some l | _ => None end))
    = 4
  ∧ _stabilize Charts.exec sc 1 (fst r) = (fst r, Returns []).
Proof.
  cbv zeta.
  set (st := mkInterpreter (EvalState := Recorder.state) [] ∅ {["O"]} []).
  set (r := _stabilize Charts.exec (Charts.nested false) 10 st).
  assert (Hr : ∃ steps, r = (fst r, Returns steps))
    by (eexists; vm_compute; reflexivity).
  destruct Hr as [steps Hr].
  split_and!; [vm_compute; reflexivity..|].
  exact (proj2 (stabilize_fixed_point Charts.exec (Charts.nested false) 10
                  st (fst r) steps Hr) 0).
Defined.

Lemma stabilize_steps_witness :
  Forall (fun step =>
            ms_event step = None ∧ ms_transition step = None
            ∧ length (exited_states step) ≤ 1)
    [mkMicroStep None None ["a"; "a1"] ["h"]].
Proof.
  apply (stabilize_steps Charts.exec Charts.remembering 10
           Charts.at_history
           (fst (_stabilize Charts.exec Charts.remembering 10
                   Charts.at_history))).
  vm_compute. reflexivity.
Defined.

(** ** One macro-step *)

Section MacroSteps.
Context {EvalState : Type}.
Variable evaluate_condition : EvalState -> string -> option Event -> bool.
Variable execute_action :
  EvalState -> string -> option Event -> EvalState * list Event.
Variable sc : StateChart.
Implicit Types st : Interpreter EvalState.

Lemma execute_steps_keeps_queue (l : list MicroStep) st st' o :
  execute_steps execute_action sc l st = (st', o) →
  ∃ front, _events st' = front ++ _events st.
Proof.
  revert st. induction l as [|step l IH]; intros st; simpl.
  - intros [= <- <-]. by exists [].
  - unfold bind.
    destruct (_execute_step execute_action sc step st) as [st1 o1] eqn:E1.
    destruct (execute_step_queue_grows _ _ _ _ _ _ E1) as [f1 Hf1].
    destruct o1; try (intros [= <- <-]; by exists f1).
    intros [f2 Hf2]%IH. exists (f2 ++ f1).
    by rewrite Hf2, Hf1, app_assoc.
Qed.

Lemma fire_keeps_queue (fuel : nat) ev ts st st' o :
  fire execute_action sc fuel ev ts st = (st', o) →
  ∃ front, _events st' = front ++ _events st.
Proof.
  unfold fire, bind, lift.
  destruct (_sort_transitions sc ts) as [sorted_ts| |];
    try (intros [= <- <-]; by exists []).
  destruct (execute_steps execute_action sc _ st) as [st1 o1] eqn:E1.
  destruct (execute_steps_keeps_queue _ _ _ _ E1) as [f1 Hf1].
  destruct o1; try (intros [= <- <-]; by exists f1).
  destruct (_stabilize execute_action sc fuel st1) as [st2 o2] eqn:E2.
  destruct (stabilize_keeps_queue _ _ _ _ _ _ E2) as [f2 Hf2].
  assert (_events st2 = (f2 ++ f1) ++ _events st)
    by by rewrite Hf2, Hf1, app_assoc.
  destruct o2; intros [= <- <-]; by eexists.
Qed.

(** What [fire] returns: the micro-steps of the ordered transitions,
    computed in the state of the call, and then stabilization steps. *)
Lemma fire_returns (fuel : nat) ev ts st st' (r : option MacroStep) :
  fire execute_action sc fuel ev ts st = (st', Returns r) →
  ∃ sorted_ts stabilization_steps,
    _sort_transitions sc ts = Returns sorted_ts
    ∧ r = Some (mkMacroStep
                  (_compute_transitions_steps sc ev sorted_ts st
                   ++ stabilization_steps))
    ∧ Forall (fun step => ms_event step = None ∧ ms_transition step = None)
        stabilization_steps.
Proof.
  unfold fire, bind, lift.
  destruct (_sort_transitions sc ts) as [sorted_ts| |]; [|done..].
  destruct (execute_steps execute_action sc _ st) as [st1 [[]| |]];
    [|done..].
  destruct (_stabilize execute_action sc fuel st1)
    as [st2 [stab| |]] eqn:E2; [|done..].
  intros [= <- <-]. exists sorted_ts, stab. split_and!; [done..|].
  eapply Forall_impl; [exact (stabilize_steps_shape _ _ _ _ _ _ E2)|].
  by intros step (? & ? & _).
Qed.



Lemma sort_transitions_length (ts r : list Transition) :
  _sort_transitions sc ts = Returns r → length r = length ts.
Proof.
  unfold _sort_transitions. case_bool_decide; [|by intros [= <-]].
  destruct (check_pairs sc _); simpl; [|done..]. intros [= <-].
  by rewrite arbitrary_order_Permutation.
Qed.


(** [execute_once] takes at most the first event from the queue, and only
    when no eventless transition is enabled; whatever its outcome, the
    other queued events are still queued in their order, behind the events
    that the macro-step has added. *)
Theorem execute_once_keeps_queue (fuel : nat) st st' o :
  execute_once evaluate_condition execute_action sc fuel st = (st', o) →
  ∃ front,
    _events st' = front ++ _events st
    ∨ (_select_eventless_transitions evaluate_condition sc st = Returns []
       ∧ ∃ ev queue, _events st = ev :: queue
           ∧ _events st' = front ++ queue).
Proof.
  unfold execute_once, bind, lift.
  destruct (_select_eventless_transitions evaluate_condition sc st)
    as [[|t ts]| |] eqn:Hsel;
    try (intros [= <- <-]; exists []; by left).
  - destruct (_events st) as [|ev queue] eqn:Hq.
    + intros [= <- <-]. exists []. left. by rewrite Hq.
    + rewrite select_transitions_queue.
      destruct (_select_transitions evaluate_condition sc (Some ev) st)
        as [[|t ts]| |].
      * intros [= <- <-]. exists []. right. split; [done|].
        by exists ev, queue.
      * intros [front Hf]%fire_keeps_queue. exists front. right.
        split; [done|]. by exists ev, queue.
      * intros [= <- <-]. exists []. right. split; [done|].
        by exists ev, queue.
      * intros [= <- <-]. exists []. right. split; [done|].
        by exists ev, queue.
  - intros [front Hf]%fire_keeps_queue. exists front. by left.
Qed.

(** When [execute_once] has nothing to do. *)
Lemma execute_once_none_iff (fuel : nat) st :
  ((∃ st', execute_once evaluate_condition execute_action sc fuel st
           = (st', Returns None))
   ↔ idle evaluate_condition sc st)
  ∧ (idle evaluate_condition sc st →
     execute_once evaluate_condition execute_action sc fuel st
     = (st, Returns None)).
Proof.
  assert (Hidle : idle evaluate_condition sc st →
    execute_once evaluate_condition execute_action sc fuel st
    = (st, Returns None)).
  { intros [Hsel Hq]. unfold execute_once, bind, lift.
    by rewrite Hsel, Hq. }
  split; [|done]. split; [|intros H; eexists; by apply Hidle].
  intros [st' H]. revert H. unfold execute_once, bind, lift, idle.
  destruct (_select_eventless_transitions evaluate_condition sc st)
    as [[|t ts]| |] eqn:Hsel; [| |done..].
  - destruct (_events st) as [|ev queue] eqn:Hq; [done|].
    destruct (_select_transitions evaluate_condition sc (Some ev) _)
      as [[|t ts]| |]; [done| |done..].
    by intros (? & ? & _ & [=] & _)%fire_returns.
  - by intros (? & ? & _ & [=] & _)%fire_returns.
Qed.

(** [execute_once] returns [None] exactly when there is nothing to do (no
    eventless transition is enabled and the queue is empty), and it has
    then changed nothing. *)
Theorem execute_once_none (fuel : nat) st :
  ((∃ st', execute_once evaluate_condition execute_action sc fuel st
           = (st', Returns None))
   ↔ idle evaluate_condition sc st)
  ∧ (idle evaluate_condition sc st →
     execute_once evaluate_condition execute_action sc fuel st
     = (st, Returns None)).
Proof. apply execute_once_none_iff. Qed.


(** *** [execute] *)

Lemma execute_loop_bound (fuel inner : nat) (max_steps i : Z)
    (macro_step : option MacroStep) st st' (l : list MacroStep) :
  (0 ≤ i < max_steps)%Z →
  execute_loop evaluate_condition execute_action sc fuel inner max_steps i
    macro_step st = (st', Returns l) →
  (Z.of_nat (length l) ≤ max_steps - i)%Z.
Proof.
  revert i macro_step st l.
  induction fuel as [|fuel IH]; intros i macro_step st l Hi;
    destruct macro_step as [m|]; simpl;
    try (intros [= <- <-]; simpl; lia).
  - case_bool_decide; [|done]. case_bool_decide; [|done].
    intros [= <- <-]. simpl. lia.
  - destruct (bool_decide (0 < max_steps)%Z && bool_decide _) eqn:Hb.
    + intros [= <- <-]. simpl. lia.
    + apply andb_false_iff in Hb.
      assert (i + 1 ≠ max_steps)%Z as Hne.
      { destruct Hb as [Hb|Hb]; apply bool_decide_eq_false in Hb; lia. }
      unfold bind.
      destruct (execute_once _ _ _ _ st) as [st1 [next| |]]; [|done..].
      destruct (execute_loop _ _ _ _ _ _ _ _ st1)
        as [st2 [more| |]] eqn:E; [|done..].
      intros [= <- <-]. apply IH in E; [|lia]. simpl. lia.
Qed.

Lemma execute_loop_run (fuel inner : nat) (max_steps i : Z)
    (macro_step : option MacroStep) st :
  (0 ≤ i < max_steps)%Z → Z.to_nat (max_steps - i) ≤ S fuel →
  execute_loop evaluate_condition execute_action sc fuel inner max_steps i
    macro_step st
  = match macro_step with
    | None => (st, Returns [])
    | Some m =>
        bind (run_at_most evaluate_condition execute_action sc
                (Z.to_nat (max_steps - i - 1)) inner)
             (fun more => ret (m :: more)) st
    end.
Proof.
  revert i macro_step st.
  induction fuel as [|fuel IH]; intros i macro_step st Hi Hfuel;
    destruct macro_step as [m|]; try done; simpl.
  - assert (i + 1 = max_steps)%Z as Hlast by lia.
    rewrite !bool_decide_eq_true_2 by lia. simpl.
    by replace (Z.to_nat (max_steps - i - 1)) with 0 by lia.
  - destruct (decide (i + 1 = max_steps)%Z) as [Hlast|Hmore].
    + rewrite !bool_decide_eq_true_2 by lia. simpl.
      by replace (Z.to_nat (max_steps - i - 1)) with 0 by lia.
    + rewrite (bool_decide_eq_false_2 (i + 1 = max_steps)%Z) by done.
      rewrite andb_false_r.
      replace (Z.to_nat (max_steps - i - 1))
        with (S (Z.to_nat (max_steps - (i + 1) - 1))) by lia.
      simpl. unfold bind at 1 3 4.
      destruct (execute_once _ _ _ _ st) as [st1 [next| |]]; [|done..].
      unfold bind at 1. rewrite IH by lia. by destruct next.
Qed.

(** With a positive bound, and at least that many turns of the loop
    allowed, [execute] is the iteration of [execute_once] at most
    [max_steps] times, up to the first call that returns [None]: it stops
    when [max_steps] macro-steps are collected, and returns at most that
    many. *)
Theorem execute_bounded (fuel inner : nat) (max_steps : Z) st :
  (0 < max_steps)%Z → Z.to_nat max_steps ≤ S fuel →
  execute evaluate_condition execute_action sc fuel inner max_steps st
  = run_at_most evaluate_condition execute_action sc
      (Z.to_nat max_steps) inner st
  ∧ ∀ st' l,
      execute evaluate_condition execute_action sc fuel inner max_steps st
      = (st', Returns l) →
      (Z.of_nat (length l) ≤ max_steps)%Z.
Proof.
  intros Hmax Hfuel. split.
  - unfold execute.
    replace (Z.to_nat max_steps)
      with (S (Z.to_nat (max_steps - 0 - 1))) by lia.
    simpl. unfold bind at 1 2.
    destruct (execute_once _ _ _ _ st) as [st1 [first| |]]; [|done..].
    rewrite execute_loop_run by lia. by destruct first.
  - intros st' l. unfold execute, bind.
    destruct (execute_once _ _ _ _ st) as [st1 [first| |]]; [|done..].
    intros H%execute_loop_bound; lia.
Qed.



Lemma execute_loop_idle (fuel inner : nat) (max_steps i : Z)
    (macro_step : option MacroStep) st st' (l : list MacroStep) :
  (macro_step = None → idle evaluate_condition sc st) →
  (0 ≤ i)%Z →
  execute_loop evaluate_condition execute_action sc fuel inner max_steps i
    macro_step st = (st', Returns l) →
  (max_steps ≤ 0 ∨ i + Z.of_nat (length l) < max_steps)%Z →
  idle evaluate_condition sc st'.
Proof.
  revert i macro_step st l.
  induction fuel as [|fuel IH]; intros i macro_step st l Hidle Hi;
    destruct macro_step as [m|]; simpl;
    try (intros [= <- <-] _; by apply Hidle).
  - destruct (bool_decide (0 < max_steps)%Z && bool_decide _) eqn:Hb;
      [|done].
    apply andb_true_iff in Hb as [?%bool_decide_eq_true ?%bool_decide_eq_true].
    intros [= <- <-]. simpl. lia.
  - destruct (bool_decide (0 < max_steps)%Z && bool_decide _) eqn:Hb.
    + apply andb_true_iff in Hb
        as [?%bool_decide_eq_true ?%bool_decide_eq_true].
      intros [= <- <-]. simpl. lia.
    + unfold bind.
      destruct (execute_once _ _ _ _ st) as [st1 [next| |]] eqn:E1;
        [|done..].
      destruct (execute_loop _ _ _ _ _ _ _ _ st1)
        as [st2 [more| |]] eqn:E; [|done..].
      intros [= <- <-] Hlen. simpl in Hlen.
      apply (IH _ _ _ _) in E; [done| |lia|lia].
      intros ->.
      destruct (execute_once_none_iff inner st) as [[Hto _] Hfrom].
      assert (Hst : idle evaluate_condition sc st) by (apply Hto; eauto).
      rewrite (Hfrom Hst) in E1. by injection E1 as <-.
Qed.

(** When [execute] returns without having reached its bound, the
    interpreter has nothing to do: no eventless transition is enabled and
    the queue is empty; another [execute] returns the empty list and
    changes nothing. *)
Theorem execute_until_idle (fuel inner : nat) (max_steps : Z) st st'
    (l : list MacroStep) :
  execute evaluate_condition execute_action sc fuel inner max_steps st
  = (st', Returns l) →
  (max_steps ≤ 0 ∨ Z.of_nat (length l) < max_steps)%Z →
  idle evaluate_condition sc st'
  ∧ ∀ fuel' inner' max_steps',
      execute evaluate_condition execute_action sc fuel' inner' max_steps'
        st' = (st', Returns []).
Proof.
  intros H Hlen.
  assert (Hidle : idle evaluate_condition sc st').
  { revert H. unfold execute, bind.
    destruct (execute_once _ _ _ _ st) as [st1 [first| |]] eqn:E1;
      [|done..].
    intros H. apply (execute_loop_idle _ _ _ _ _ _ _ _) in H;
      [done| |lia|lia].
    intros ->.
    destruct (execute_once_none_iff inner st) as [[Hto _] Hfrom].
    assert (Hst : idle evaluate_condition sc st) by (apply Hto; eauto).
    rewrite (Hfrom Hst) in E1. by injection E1 as <-. }
  split; [done|]. intros fuel' inner' max_steps'.
  unfold execute, bind.
  rewrite (proj2 (execute_once_none_iff inner' st') Hidle).
  by destruct fuel'.
Qed.

End MacroSteps.

(** ** Recording and restoring the history *)

Section History.
Context {EvalState : Type}.
Variable execute_action :
  EvalState -> string -> option Event -> EvalState * list Event.
Variable sc : StateChart.
Implicit Types st : Interpreter EvalState.

Lemma record_history_key name children child st st1 :
  record_history sc name children child st = (st1, Returns tt) →
  match child with
  | HistoryState h _ deep =>
      st1 = set_memory st
              (<[h := remembered sc (_configuration st) name children deep]>
                 (_memory st))
  | _ => st1 = st
  end.
Proof.
  destruct child; simpl; try by intros [= <-].
  unfold remembered. by destruct (if deep then _ else _); intros [= <-].
Qed.

Section Key.
Variables (h : string) (V : list string).

Lemma record_children_key name children todo st st' :
  (∀ c i d, c ∈ todo → states sc !! c = Some (HistoryState h i d) →
            remembered sc (_configuration st) name children d = V) →
  record_children sc name children todo st = (st', Returns tt) →
  _configuration st' = _configuration st
  ∧ (_memory st !! h = Some V → _memory st' !! h = Some V)
  ∧ ((∃ c i d, c ∈ todo ∧ states sc !! c = Some (HistoryState h i d)) →
     _memory st' !! h = Some V).
Proof.
  revert st. induction todo as [|c todo IH]; intros st HV; simpl.
  - intros [= <-]. split_and!; [done..|].
    by intros (c & i & d & ?%elem_of_nil & _).
  - destruct (states sc !! c) as [child|] eqn:E; [|done]. unfold bind.
    destruct (record_history sc name children child st)
      as [st1 [[]| |]] eqn:E1; [|done..].
    apply record_history_key in E1.
    assert (Hstep : _configuration st1 = _configuration st
      ∧ (_memory st !! h = Some V → _memory st1 !! h = Some V)
      ∧ (∀ i d, child = HistoryState h i d → _memory st1 !! h = Some V)).
    { destruct child; subst st1; split_and!; try done.
      - simpl. intros Hm. destruct (decide (name0 = h)) as [->|Hne].
        + rewrite lookup_insert_eq. f_equal. apply (HV c initial deep);
            [by left|done].
        + by rewrite lookup_insert_ne.
      - intros i d [= -> -> ->]. simpl. rewrite lookup_insert_eq. f_equal.
        apply (HV c i d); [by left|done]. }
    destruct Hstep as (Hc1 & Hkeep1 & Hset1).
    intros H. apply IH in H as (Hc & Hkeep & Hset).
    + split_and!.
      * by rewrite Hc.
      * intros Hm. by apply Hkeep, Hkeep1.
      * intros (c' & i & d & [->|Hc']%elem_of_cons & Hs).
        -- apply Hkeep, (Hset1 i d). congruence.
        -- apply Hset. by exists c', i, d.
    + intros c' i d Hc' Hs. rewrite Hc1.
      apply (HV c' i d); [by right|done].
Qed.

Lemma record_memory_key (exited : list State) st st' :
  (∀ name init en ex children ts c i d,
     CompoundState name init en ex children ts ∈ exited →
     c ∈ children → states sc !! c = Some (HistoryState h i d) →
     remembered sc (_configuration st) name children d = V) →
  record_memory sc exited st = (st', Returns tt) →
  _configuration st' = _configuration st
  ∧ (_memory st !! h = Some V → _memory st' !! h = Some V)
  ∧ ((∃ name init en ex children ts c i d,
        CompoundState name init en ex children ts ∈ exited
        ∧ c ∈ children ∧ states sc !! c = Some (HistoryState h i d)) →
     _memory st' !! h = Some V).
Proof.
  revert st. induction exited as [|s exited IH]; intros st HV; simpl.
  - intros [= <-]. split_and!; [done..|].
    by intros (? & ? & ? & ? & ? & ? & ? & ? & ? & ?%elem_of_nil & _).
  - assert (Hother : (∀ name init en ex children ts,
                        s ≠ CompoundState name init en ex children ts) →
      record_memory sc exited st = (st', Returns tt) →
      _configuration st' = _configuration st
      ∧ (_memory st !! h = Some V → _memory st' !! h = Some V)
      ∧ ((∃ name init en ex children ts c i d,
            CompoundState name init en ex children ts ∈ s :: exited
            ∧ c ∈ children ∧ states sc !! c = Some (HistoryState h i d)) →
         _memory st' !! h = Some V)).
    { intros Hs H. apply IH in H as (Hc & Hkeep & Hset).
      - split_and!; [done..|].
        intros (n & i0 & en & ex & ch & ts & c & i & d
                & [Heq|Hin]%elem_of_cons & Hc' & Hst).
        + by destruct (Hs n i0 en ex ch ts).
        + apply Hset. by exists n, i0, en, ex, ch, ts, c, i, d.
      - intros n i0 en ex ch ts c i d Hin Hc' Hst.
        apply (HV n i0 en ex ch ts c i d); [by right|done..]. }
    destruct s; try (apply Hother; by intros).
    unfold bind.
    destruct (record_children sc name children children st)
      as [st1 [[]| |]] eqn:E1; [|done..].
    apply record_children_key in E1 as (Hc1 & Hkeep1 & Hset1).
    + intros H. apply IH in H as (Hc & Hkeep & Hset).
      * split_and!.
        -- by rewrite Hc.
        -- intros Hm. by apply Hkeep, Hkeep1.
        -- intros (n & i0 & en & ex & ch & ts & c & i & d
                   & [Heq|Hin]%elem_of_cons & Hc' & Hst).
           ++ injection Heq as -> -> -> -> -> ->.
              apply Hkeep, Hset1. by exists c, i, d.
           ++ apply Hset. by exists n, i0, en, ex, ch, ts, c, i, d.
      * intros n i0 en ex ch ts c i d Hin Hc' Hst. rewrite Hc1.
        apply (HV n i0 en ex ch ts c i d); [by right|done..].
    + intros c i d Hc' Hst.
      apply (HV name initial on_entry on_exit children transitions c i d);
        [by left|done..].
Qed.

End Key.

Lemma lookup_states_elem (names : list string) (l : list State) :
  lookup_states sc names = Returns l →
  (∀ n s, n ∈ names → states sc !! n = Some s → s ∈ l)
  ∧ (∀ s, s ∈ l → ∃ n, n ∈ names ∧ states sc !! n = Some s).
Proof.
  revert l. induction names as [|n names IH]; intros l; simpl.
  - intros [= <-]. split; [by intros ? ? ?%elem_of_nil|].
    by intros ? ?%elem_of_nil.
  - destruct (states sc !! n) as [s|] eqn:E; [|done].
    destruct (lookup_states sc names) as [l'| |]; simpl; [|done..].
    intros [= <-]. destruct (IH l' eq_refl) as [H1 H2]. split.
    + intros n' s' [->|Hn']%elem_of_cons Hs'; apply elem_of_cons.
      * left. congruence.
      * right. by apply (H1 n').
    + intros s' [->|Hs']%elem_of_cons.
      * exists n. by split; [left|].
      * destruct (H2 s' Hs') as (n' & ? & ?). exists n'.
        by split; [right|].
Qed.

(** When a micro-step that exits the compound state [name] has been
    applied, the memory of a history child [h] of that state holds the
    states that were active below it when the step began: all its active
    descendants for a deep history, its active children for a shallow
    one. The premise on the exited states says that [h] is recorded for
    one parent only. *)
Theorem execute_step_records_history (step : MicroStep) st st'
    (n name : string) (init en ex : option string)
    (children : list string) (ts : list Transition)
    (c h i : string) (deep : bool) :
  _execute_step execute_action sc step st = (st', Returns tt) →
  n ∈ exited_states step →
  states sc !! n = Some (CompoundState name init en ex children ts) →
  c ∈ children → states sc !! c = Some (HistoryState h i deep) →
  (∀ n' name' init' en' ex' children' ts' c' i' deep',
     n' ∈ exited_states step →
     states sc !! n'
     = Some (CompoundState name' init' en' ex' children' ts') →
     c' ∈ children' → states sc !! c' = Some (HistoryState h i' deep') →
     remembered sc (_configuration st) name' children' deep'
     = remembered sc (_configuration st) name children deep) →
  _memory st' !! h
  = Some (remembered sc (_configuration st) name children deep).
Proof.
  intros H Hn Hs Hc Hh Hone.
  apply execute_step_returns in H
    as (entered & exited & m & _ & Hex & Hrec & ->).
  cbv zeta. rewrite run_transition_action_spec, !run_actions_spec. simpl.
  destruct (lookup_states_elem _ _ Hex) as [Hin Hback].
  apply (record_memory_key h
           (remembered sc (_configuration st) name children deep))
    in Hrec as (_ & _ & Hset).
  - simpl in Hset. apply Hset.
    exists name, init, en, ex, children, ts, c, i, deep.
    split_and!; [|done..]. by apply (Hin n).
  - rewrite run_actions_spec. simpl.
    intros name' init' en' ex' children' ts' c' i' d' Hin' Hc' Hh'.
    destruct (Hback _ Hin') as (n' & Hn' & Hs').
    by apply (Hone n' name' init' en' ex' children' ts' c' i' d').
Qed.

(** When the first leaf on which the stabilizer has something to do is a
    history state, the step enters the states of its memory, by ascending
    depth, or its initial state when nothing is recorded for it, and
    exits the history state. *)
Theorem compute_stabilization_step_history (pre post : list string)
    (leaf h i : string) (deep : bool) st :
  leaf_for sc (elements (_configuration st)) = pre ++ leaf :: post →
  Forall (fun l => ∃ s, states sc !! l = Some s ∧ stable_leaf s) pre →
  states sc !! leaf = Some (HistoryState h i deep) →
  ∃ st',
    _compute_stabilization_step sc st
    = (st', Returns (Some (mkMicroStep None None
                             (sorted (name_depth_le sc)
                                (default [i] (_memory st !! h)))
                             [h])))
    ∧ _configuration st' = _configuration st
    ∧ _events st' = _events st.
Proof.
  intros Hleaves Hpre Hleaf. unfold _compute_stabilization_step.
  rewrite Hleaves. clear Hleaves.
  induction Hpre as [|l pre (s & Hl & Hs) _ IH]; simpl.
  - rewrite Hleaf. unfold bind, history_step. eexists.
    split; [done|]. by destruct (_memory st !! h).
  - rewrite Hl. destruct s; simpl in Hs; try done. by subst initial.
Qed.

End History.

(** ** The memory through stabilization and startup *)

Section MemoryKeys.
Context {EvalState : Type}.
Variable execute_action :
  EvalState -> string -> option Event -> EvalState * list Event.
Variable sc : StateChart.
Implicit Types st : Interpreter EvalState.

(** The memory through the stabilizer. *)
Lemma stabilize_memory_kept (fuel : nat) st st' o :
  (∀ k s, states sc !! k = Some s → state_name s = k) →
  _stabilize execute_action sc fuel st = (st', o) →
  dom (_memory st') = dom (_memory st)
  ∧ ∀ h l, _memory st !! h = Some l →
      ∃ l', _memory st' !! h = Some l' ∧ l' ≡ₚ l.
Proof.
  intros Hnames. revert st st' o.
  induction fuel as [|fuel IH]; intros st st' o; simpl.
  - intros [= <- <-]. split; [done|]. intros h l Hl. by exists l.
  - unfold bind.
    destruct (_compute_stabilization_step sc st) as [st1 o1] eqn:E1.
    destruct (compute_stabilization_step_memory _ _ _ _ E1)
      as [Hdom1 Hperm1].
    assert (Hbase : dom (_memory st1) = dom (_memory st)
      ∧ ∀ h l, _memory st !! h = Some l →
          ∃ l', _memory st1 !! h = Some l' ∧ l' ≡ₚ l).
    { split; [done|]. intros h l Hl.
      destruct (Hperm1 h l Hl) as (l' & ? & ? & _). by exists l'. }
    destruct o1 as [[step|]| |]; try (by intros [= <- <-]).
    destruct (_execute_step execute_action sc step st1) as [st2 o2] eqn:E2.
    assert (Hm2 : _memory st2 = _memory st1).
    { eapply execute_step_memory; [|exact E2].
      by apply (stabilization_step_exits sc _ _ _ _ Hnames E1). }
    assert (Hsecond : dom (_memory st2) = dom (_memory st)
      ∧ ∀ h l, _memory st !! h = Some l →
          ∃ l', _memory st2 !! h = Some l' ∧ l' ≡ₚ l)
      by by rewrite Hm2.
    destruct o2; try (by intros [= <- <-]).
    destruct (_stabilize execute_action sc fuel st2) as [st3 o3] eqn:E3.
    destruct (IH _ _ _ E3) as [Hdom3 Hperm3].
    assert (Hthird : dom (_memory st3) = dom (_memory st)
      ∧ ∀ h l, _memory st !! h = Some l →
          ∃ l', _memory st3 !! h = Some l' ∧ l' ≡ₚ l).
    { destruct Hsecond as [Hdom2 Hperm2]. split; [congruence|].
      intros h l Hl. destruct (Hperm2 h l Hl) as (l2 & Hl2 & Hp2).
      destruct (Hperm3 h l2 Hl2) as (l3 & Hl3 & Hp3).
      exists l3. split; [done|]. by rewrite Hp3. }
    by destruct o3; intros [= <- <-].
Qed.

(** The stabilizer adds no key to the history memory and removes none,
    and every stored list keeps its elements (their order can change);
    the chart is taken to store each state under its own name. *)
Theorem stabilize_memory (fuel : nat) st st' o :
  (∀ k s, states sc !! k = Some s → state_name s = k) →
  _stabilize execute_action sc fuel st = (st', o) →
  dom (_memory st') = dom (_memory st)
  ∧ ∀ h l, _memory st !! h = Some l →
      ∃ l', _memory st' !! h = Some l' ∧ l' ≡ₚ l.
Proof. apply stabilize_memory_kept. Qed.

(** The history memory of a new interpreter is empty, whatever the
    outcome of its startup. *)
Theorem interpreter_init_memory (e : EvalState) (fuel : nat) st o :
  (∀ k s, states sc !! k = Some s → state_name s = k) →
  Interpreter_init execute_action sc e fuel = (st, o) →
  _memory st = ∅.
Proof.
  intros Hnames. unfold Interpreter_init, _start, bind, modify.
  set (st0 := match truthy (sc_on_entry sc) with
              | Some code => _
              | None => _
              end).
  assert (H0 : _memory st0 = ∅) by (subst st0; by destruct (truthy _)).
  destruct (_execute_step execute_action sc _ st0) as [st1 o1] eqn:E1.
  assert (H1 : _memory st1 = ∅).
  { rewrite <- H0. eapply execute_step_memory; [|exact E1].
    intros n s Hn. by apply elem_of_nil in Hn. }
  destruct o1; try (by intros [= <- <-]).
  destruct (_stabilize execute_action sc fuel st1) as [st2 o2] eqn:E2.
  destruct (stabilize_memory_kept _ _ _ _ Hnames E2) as [Hdom _].
  rewrite H1, dom_empty_L in Hdom. apply dom_empty_inv_L in Hdom.
  by destruct o2; intros [= <- <-].
Qed.

End MemoryKeys.

(** ** These properties on the example statecharts *)

Lemma names_match_remembering :
  ∀ k s, states Charts.remembering !! k = Some s → state_name s = k.
Proof. apply map_Forall_lookup. compute_done. Qed.

Lemma execute_step_configuration_witness :
  let st := Charts.started Charts.acting ["q"] in
  _configuration
    (fst (_execute_step Charts.exec Charts.acting Charts.go_step st))
  = (_configuration st ∖ list_to_set ["s"]) ∪ list_to_set ["t"].
Proof.
  cbv zeta.
  apply (execute_step_configuration Charts.exec Charts.acting
           Charts.go_step (Charts.started Charts.acting ["q"])).
  vm_compute. reflexivity.
Defined.

Lemma execute_step_failure_witness :
  let st := Charts.started Charts.acting ["q"] in
  let left :=
    fst (execute_once Charts.eval Charts.exec Charts.remembering 10
           (Charts.started Charts.remembering ["leave"])) in
  (∃ k, _execute_step Charts.exec Charts.acting
          (mkMicroStep None None ["nowhere"] ["s"]) st
        = (st, Raises (KeyError k)))
  ∧ _execute_step Charts.exec Charts.remembering
      (mkMicroStep None None [] ["S"]) left
    = (left, Raises AssertionError).
Proof.
  cbv zeta. split.
  - destruct (execute_step_failure Charts.exec Charts.acting
                (mkMicroStep None None ["nowhere"] ["s"])
                (Charts.started Charts.acting ["q"])) as [Hkey _].
    apply (Hkey "nowhere"); compute_done.
  - set (left := fst (execute_once _ _ _ _ _)).
    destruct (execute_step_failure Charts.exec Charts.remembering
                (mkMicroStep None None [] ["S"]) left) as [_ Hrec].
    apply (Hrec [] [Charts.compound "S" "a" ["h"; "a"] []] left
             AssertionError); vm_compute; reflexivity.
Defined.

Lemma execute_step_keeps_queue_witness :
  let st := Charts.started Charts.acting ["q"] in
  ∃ front,
    _events (fst (_execute_step Charts.exec Charts.acting Charts.go_step st))
    = front ++ [mkEvent "q"].
Proof.
  cbv zeta.
  set (r := _execute_step Charts.exec Charts.acting Charts.go_step
              (Charts.started Charts.acting ["q"])).
  exact (execute_step_keeps_queue Charts.exec Charts.acting Charts.go_step
           (Charts.started Charts.acting ["q"]) (fst r) (snd r)
           (surjective_pairing r)).
Defined.

Lemma execute_once_keeps_queue_witness :
  let st := Charts.started Charts.acting ["go"; "q"] in
  let st' := fst (execute_once Charts.eval Charts.exec Charts.acting 10 st) in
  ∃ front,
    _events st' = front ++ _events st
    ∨ (_select_eventless_transitions Charts.eval Charts.acting st
       = Returns []
       ∧ ∃ ev queue, _events st = ev :: queue
           ∧ _events st' = front ++ queue).
Proof.
  cbv zeta.
  set (st := Charts.started Charts.acting ["go"; "q"]).
  set (r := execute_once Charts.eval Charts.exec Charts.acting 10 st).
  exact (execute_once_keeps_queue Charts.eval Charts.exec Charts.acting 10
           st (fst r) (snd r) (surjective_pairing r)).
Defined.

Lemma execute_once_none_witness :
  let st := Charts.started (Charts.nested false) [] in
  execute_once Charts.eval Charts.exec (Charts.nested false) 10 st
  = (st, Returns None).
Proof.
  cbv zeta.
  apply (execute_once_none Charts.eval Charts.exec (Charts.nested false) 10
           (Charts.started (Charts.nested false) [])).
  split; vm_compute; reflexivity.
Defined.


Lemma execute_bounded_witness :
  let sc := Charts.nested false in
  let st := Charts.started sc ["X"; "Y"; "Z"] in
  execute Charts.eval Charts.exec sc 10 10 2 st
  = run_at_most Charts.eval Charts.exec sc 2 10 st
  ∧ ∃ l, snd (execute Charts.eval Charts.exec sc 10 10 2 st) = Returns l
      ∧ length l = 2
      ∧ _events (fst (execute Charts.eval Charts.exec sc 10 10 2 st))
        = [mkEvent "Z"].
Proof.
  cbv zeta.
  destruct (execute_bounded Charts.eval Charts.exec (Charts.nested false)
              10 10 2 (Charts.started (Charts.nested false) ["X"; "Y"; "Z"]))
    as [Hrun _]; [lia|simpl; lia|].
  split; [exact Hrun|].
  eexists. split_and!; vm_compute; reflexivity.
Defined.


Lemma execute_until_idle_witness :
  let sc := Charts.nested false in
  let st := Charts.started sc ["X"; "Y"; "Z"] in
  let st' := fst (execute Charts.eval Charts.exec sc 10 10 (-1) st) in
  idle Charts.eval sc st'
  ∧ execute Charts.eval Charts.exec sc 10 10 (-1) st' = (st', Returns []).
Proof.
  cbv zeta.
  set (st := Charts.started (Charts.nested false) ["X"; "Y"; "Z"]).
  set (r := execute Charts.eval Charts.exec (Charts.nested false)
              10 10 (-1) st).
  assert (Hl : ∃ l, r = (fst r, Returns l))
    by (eexists; vm_compute; reflexivity).
  destruct Hl as [l Hr].
  destruct (execute_until_idle Charts.eval Charts.exec (Charts.nested false)
              10 10 (-1) st (fst r) l Hr) as [Hidle Hagain]; [lia|].
  split; [exact Hidle|apply Hagain].
Defined.

Lemma execute_step_records_history_witness :
  let st := Charts.started Charts.remembering [] in
  let step :=
    mkMicroStep (Some (mkEvent "leave")) (Some (Charts.on "leave" "a1" "out"))
      ["out"] ["a1"; "a"; "S"] in
  _memory (fst (_execute_step Charts.exec Charts.remembering step st)) !! "h"
  = Some ["a1"; "a"].
Proof.
  cbv zeta.
  set (st := Charts.started Charts.remembering []).
  set (step := mkMicroStep _ _ _ _).
  change (Some ["a1"; "a"])
    with (Some (remembered Charts.remembering
                  (_configuration st) "S" ["h"; "a"] true)).
  apply (execute_step_records_history Charts.exec Charts.remembering
           step st _ "S" "S" (Some "a") None None ["h"; "a"] [] "h" "h" "a"
           true).
  - vm_compute. reflexivity.
  - compute_done.
  - vm_compute. reflexivity.
  - compute_done.
  - vm_compute. reflexivity.
  - intros n' name' init' en' ex' children' ts' c' i' deep' Hn' Hs' Hc' Hh'.
    assert (c' = "h") as ->.
    { pose proof (names_match_remembering _ _ Hh') as Hk. by simpl in Hk. }
    vm_compute in Hn'.
    repeat (apply elem_of_cons in Hn' as [->|Hn']);
      [..|by apply elem_of_nil in Hn'];
      vm_compute in Hs'; try discriminate Hs';
      injection Hs' as <- <- <- <- <- <-.
    + vm_compute in Hc'.
      repeat (apply elem_of_cons in Hc' as [[=]|Hc']).
      by apply elem_of_nil in Hc'.
    + vm_compute in Hh'. by injection Hh' as <- <-.
Defined.

Lemma compute_stabilization_step_history_witness :
  ∃ st',
    _compute_stabilization_step Charts.remembering Charts.at_history
    = (st', Returns (Some (mkMicroStep None None
                             (sorted (name_depth_le Charts.remembering)
                                (default ["a"]
                                   (_memory Charts.at_history !! "h")))
                             ["h"])))
    ∧ _configuration st' = _configuration Charts.at_history
    ∧ _events st' = _events Charts.at_history.
Proof.
  apply (compute_stabilization_step_history Charts.remembering
           [] [] "h" "h" "a" true Charts.at_history).
  - vm_compute. reflexivity.
  - constructor.
  - vm_compute. reflexivity.
Defined.

Lemma stabilize_memory_witness :
  let r := _stabilize Charts.exec Charts.remembering 10 Charts.at_history in
  dom (_memory (fst r)) = dom (_memory Charts.at_history)
  ∧ ∀ h l, _memory Charts.at_history !! h = Some l →
      ∃ l', _memory (fst r) !! h = Some l' ∧ l' ≡ₚ l.
Proof.
  cbv zeta.
  set (r := _stabilize Charts.exec Charts.remembering 10 Charts.at_history).
  exact (stabilize_memory Charts.exec Charts.remembering 10
           Charts.at_history (fst r) (snd r) names_match_remembering
           (surjective_pairing r)).
Defined.

Lemma interpreter_init_memory_witness :
  _memory (fst (Interpreter_init Charts.exec Charts.remembering [] 10)) = ∅.
Proof.
  set (r := Interpreter_init Charts.exec Charts.remembering [] 10).
  exact (interpreter_init_memory Charts.exec Charts.remembering [] 10
           (fst r) (snd r) names_match_remembering (surjective_pairing r)).
Defined.

(** ** [running] *)

Section Running.
Context {EvalState : Type}.
Variable sc : StateChart.
Implicit Types st : Interpreter EvalState.

Lemma running_scan_false (leaves : list string) :
  running_scan sc leaves = Returns false →
  ∀ leaf, leaf ∈ leaves →
    ∃ n e x, states sc !! leaf = Some (FinalState n e x).
Proof.
  induction leaves as [|l leaves IH]; simpl;
    [by intros _ ? ?%elem_of_nil|].
  destruct (states sc !! l) as [[]|] eqn:E; try done.
  intros H leaf [->|Hleaf]%elem_of_cons; [by eauto|by apply IH].
Qed.

(** [running] is false exactly when every leaf of the configuration is a
    final state of the chart; the stabilizer has then nothing to do. *)
Theorem not_running st :
  (running sc st = Returns false
   ↔ ∀ leaf, leaf ∈ leaf_for sc (elements (_configuration st)) →
       ∃ n e x, states sc !! leaf = Some (FinalState n e x))
  ∧ (running sc st = Returns false →
     _compute_stabilization_step sc st = (st, Returns None)).
Proof.
  unfold running. split; [split|].
  - apply running_scan_false.
  - generalize (leaf_for sc (elements (_configuration st))).
    intros leaves. induction leaves as [|l leaves IH]; intros H; [done|].
    simpl. destruct (H l) as (n & e & x & ->); [by left|].
    apply IH. intros leaf Hleaf. apply H. by right.
  - intros H. apply stabilization_scan_stable.
    intros leaf Hleaf.
    destruct (running_scan_false _ H leaf Hleaf) as (n & e & x & Hs).
    by eexists.
Qed.

End Running.

Lemma not_running_witness :
  let sc := Tree.chart false [FinalState "end" None None] "end" None in
  let st := fst (Interpreter_init Charts.exec sc [] 10) in
  running sc st = Returns false
  ∧ _compute_stabilization_step sc st = (st, Returns None).
Proof.
  cbv zeta.
  set (sc := Tree.chart false [FinalState "end" None None] "end" None).
  set (st := fst (Interpreter_init Charts.exec sc [] 10)).
  assert (Hr : running sc st = Returns false) by (vm_compute; reflexivity).
  split; [exact Hr|]. exact (proj2 (not_running sc st) Hr).
Defined.
